(** * A shallow embedding of [render_album.py]

    The script orchestrates [ffmpeg]: it validates its input paths, transcodes
    every WAV file to a numbered FLAC in a temporary directory while growing a
    concat manifest, concatenates the FLACs, and renders a still-image video.

    The model keeps the program's own logic exact and takes the libraries
    and the operating system as parameters of a [Section]: [argparse]'s
    reading of the command line, path resolution, existence tests,
    globbing, the temporary directory name, and the result of each external
    process.  The effects the program performs (file writes, spawned commands,
    printed lines, the temporary directory) are threaded through an explicit
    state/exception monad, in the style of Python's exceptions. *)

From Stdlib Require Import String Ascii List ZArith Bool Lia Arith.
From Stdlib Require Import DecimalNat DecimalZ Sorted Permutation.
Import ListNotations.
Open Scope string_scope.

(** ** Strings *)

Definition nl : string := String (ascii_of_nat 10) EmptyString.
Definition quote : string := String (ascii_of_nat 39) EmptyString.

(** [sep.join(l)] *)
Fixpoint join (sep : string) (l : list string) : string :=
  match l with
  | [] => ""
  | [x] => x
  | x :: rest => x ++ sep ++ join sep rest
  end.

(** Decimal rendering of numbers, as [str(n)] and f-strings do. *)
Fixpoint uint_str (u : Decimal.uint) : string :=
  match u with
  | Decimal.Nil => ""
  | Decimal.D0 u => String "0" (uint_str u)
  | Decimal.D1 u => String "1" (uint_str u)
  | Decimal.D2 u => String "2" (uint_str u)
  | Decimal.D3 u => String "3" (uint_str u)
  | Decimal.D4 u => String "4" (uint_str u)
  | Decimal.D5 u => String "5" (uint_str u)
  | Decimal.D6 u => String "6" (uint_str u)
  | Decimal.D7 u => String "7" (uint_str u)
  | Decimal.D8 u => String "8" (uint_str u)
  | Decimal.D9 u => String "9" (uint_str u)
  end.

Definition nat_str (n : nat) : string := uint_str (Nat.to_uint n).

Definition Z_str (z : Z) : string :=
  match Z.to_int z with
  | Decimal.Pos u => uint_str u
  | Decimal.Neg u => "-" ++ uint_str u
  end.

(** [f"{idx:02d}"]: at least two digits, left-padded with zeros. *)
Definition fmt02d (n : nat) : string :=
  if Nat.ltb n 10 then "0" ++ nat_str n else nat_str n.

(** [str.lower()] on ASCII text. *)
Definition lower_ascii (c : ascii) : ascii :=
  let n := nat_of_ascii c in
  if andb (Nat.leb 65 n) (Nat.leb n 90) then ascii_of_nat (n + 32) else c.

Fixpoint lower (s : string) : string :=
  match s with
  | EmptyString => EmptyString
  | String c s' => String (lower_ascii c) (lower s')
  end.

(** [s.rfind(".")], with [None] for -1. *)
Fixpoint rfind_dot_aux (s : string) (i : nat) (best : option nat) : option nat :=
  match s with
  | EmptyString => best
  | String c s' =>
      rfind_dot_aux s' (S i) (if Ascii.eqb c "." then Some i else best)
  end.

Definition rfind_dot (s : string) : option nat := rfind_dot_aux s 0 None.

(** ** Paths

    Every path the script handles has been made absolute (by [resolve] or
    by [tempfile]), so a path is its list of components below the root;
    [str(path)] joins them with slashes. *)

Record Path := mkPath { parts : list string }.

Definition path_str (p : Path) : string := "/" ++ join "/" (parts p).

(** [p / name] for a single component [name]. *)
Definition pdiv (p : Path) (name : string) : Path := mkPath (parts p ++ [name]).

(** [PurePath.name] *)
Definition path_name (p : Path) : string := last (parts p) "".

(** [PurePath.suffix]: [name[i:]] when [0 < i < len(name) - 1] for
    [i = name.rfind(".")], else the empty string. *)
Definition suffix (p : Path) : string :=
  let name := path_name p in
  match rfind_dot name with
  | Some i =>
      if andb (Nat.ltb 0 i) (Nat.ltb i (String.length name - 1))
      then substring i (String.length name - i) name
      else ""
  | None => ""
  end.

(** Python compares [PurePath]s by their lists of components. *)
Fixpoint parts_leb (a b : list string) : bool :=
  match a, b with
  | [], _ => true
  | _ :: _, [] => false
  | x :: a', y :: b' =>
      match String.compare x y with
      | Lt => true
      | Gt => false
      | Eq => parts_leb a' b'
      end
  end.

Definition path_leb (a b : Path) : bool := parts_leb (parts a) (parts b).

(** [sorted(...)] is stable: an insertion sort gives its result. *)
Fixpoint insert_sorted (x : Path) (l : list Path) : list Path :=
  match l with
  | [] => [x]
  | y :: l' => if path_leb y x then y :: insert_sorted x l' else x :: l
  end.

Fixpoint sorted (l : list Path) : list Path :=
  match l with
  | [] => []
  | x :: l' => insert_sorted x (sorted l')
  end.

(** ** Exceptions *)

(** The argument of [SystemExit]: an exit code or a message. *)
Inductive exit_arg :=
| ExitCode (z : Z)
| ExitMsg (s : string).

Inductive exn :=
| RuntimeError (msg : string)
| FileNotFoundError (msg : string)
| SystemExit (a : exit_arg).

(** [isinstance(e, Exception)]: [SystemExit] derives from [BaseException]
    only. *)
Definition is_Exception (e : exn) : bool :=
  match e with
  | SystemExit _ => false
  | _ => true
  end.

(** [str(e)] *)
Definition exn_str (e : exn) : string :=
  match e with
  | RuntimeError m | FileNotFoundError m => m
  | SystemExit (ExitMsg m) => m
  | SystemExit (ExitCode z) => Z_str z
  end.

(** ** The world the script acts on *)

(** The file system is a map from path strings to contents. *)
Definition Files := string -> option string.

Definition fs_write (fs : Files) (k v : string) : Files :=
  fun k' => if String.eqb k' k then Some v else fs k'.

Record World := mkWorld {
  files : Files;
  scratch : option Path;     (** the live temporary directory *)
  spawned : list (list string);  (** argument vectors, oldest first *)
  out_lines : list string;   (** lines printed on standard output *)
  err_lines : list string    (** lines printed on standard error *)
}.

Definition set_files (w : World) (fs : Files) : World :=
  mkWorld fs (scratch w) (spawned w) (out_lines w) (err_lines w).
Definition set_scratch (w : World) (s : option Path) : World :=
  mkWorld (files w) s (spawned w) (out_lines w) (err_lines w).
Definition add_spawned (w : World) (c : list string) : World :=
  mkWorld (files w) (scratch w) (spawned w ++ [c]) (out_lines w) (err_lines w).
Definition add_out (w : World) (l : string) : World :=
  mkWorld (files w) (scratch w) (spawned w) (out_lines w ++ [l]) (err_lines w).
Definition add_err (w : World) (l : string) : World :=
  mkWorld (files w) (scratch w) (spawned w) (out_lines w) (err_lines w ++ [l]).
Definition add_outs (w : World) (t : list string) : World :=
  mkWorld (files w) (scratch w) (spawned w) (out_lines w ++ t) (err_lines w).
Definition add_errs (w : World) (t : list string) : World :=
  mkWorld (files w) (scratch w) (spawned w) (out_lines w) (err_lines w ++ t).

(** ** The state/exception monad *)

Definition M (A : Type) : Type := World -> (A + exn) * World.

Definition ret {A} (a : A) : M A := fun w => (inl a, w).
Definition raise {A} (e : exn) : M A := fun w => (inr e, w).
Definition bind {A B} (m : M A) (k : A -> M B) : M B :=
  fun w => match m w with
           | (inl a, w') => k a w'
           | (inr e, w') => (inr e, w')
           end.
Definition modify (f : World -> World) : M unit := fun w => (inl tt, f w).

Notation "x <- m ;; k" := (bind m (fun x => k))
  (at level 61, m at next level, right associativity).
Notation "m ;;; k" := (bind m (fun _ => k))
  (at level 61, right associativity).

Definition print (l : string) : M unit := modify (fun w => add_out w l).

(** [path.write_text(v)] *)
Definition write_text (p : Path) (v : string) : M unit :=
  modify (fun w => set_files w (fs_write (files w) (path_str p) v)).

(** [with path.open("a") as f: f.write(v)] *)
Definition append_text (p : Path) (v : string) : M unit :=
  modify (fun w =>
    let k := path_str p in
    let old := match files w k with Some c => c | None => "" end in
    set_files w (fs_write (files w) k (old ++ v))).

(** ** External processes

    A spawned process ends with an exit code and its combined
    standard output and error ([stderr=subprocess.STDOUT]); [ffmpeg] may also
    (re)write the file named by its last argument. *)

Record ProcResult := mkProc {
  returncode : Z;
  proc_stdout : string;
  proc_output : option string
}.

(** The namespace [parser.parse_args()] returns: [args.input],
    [args.cover], [args.pattern] and [args.output]. *)
Record Args := mkArgs {
  a_input : string;
  a_cover : string;
  a_pattern : string;
  a_output : string
}.

(** How [parser.parse_args()] ends.  Reading the argument vector is the
    work of the [argparse] library, whose rules (option abbreviations,
    [--opt=value], values that look like options, the order of its checks)
    vary across Python versions; the script below takes that reading as
    its parameter [argparse], as it takes the other services of the
    platform.  It ends in one of three ways: the namespace of an accepted
    command line (with [cover.png], [*.wav] and [FULL-GPU.mp4] for the
    options not given); for [-h]/[--help], the help text, which [argparse]
    prints on standard output before raising [SystemExit(0)]; for a
    rejected command line (a missing [--input], an option without its
    value, an unknown argument), the usage and the error, which it prints
    on standard error before raising [SystemExit(2)]. *)
Inductive parse_res :=
| PDone (a : Args)
| PHelp (text : list string)
| PError (text : list string).

(** The outcome of the process: its exit status and the final world. *)
Record Outcome := mkOutcome {
  exit_code : Z;
  final : World
}.

Section Script.

(** The reading of the argument vector by [argparse]. *)
Variable argparse : list string -> parse_res.
(** The operating system. *)
Variable proc : list string -> ProcResult.
(** [Path(s).expanduser().resolve()] *)
Variable resolve_input : string -> Path.
(** [(root / s).resolve()] *)
Variable resolve_in : Path -> string -> Path.
(** [Path.exists()], [Path.is_file()], [Path.glob(pattern)] *)
Variable path_exists : Path -> bool.
Variable is_file : Path -> bool.
Variable glob : Path -> string -> list Path.
(** The fresh directory [tempfile.TemporaryDirectory()] creates. *)
Variable mkdtemp : Path.

(** [run(cmd)] *)
Definition run (cmd : list string) : M string := fun w =>
  let r := proc cmd in
  let w1 := add_spawned w cmd in
  let w2 := match proc_output r with
            | Some c => set_files w1 (fs_write (files w1) (last cmd "") c)
            | None => w1
            end in
  if Z.eqb (returncode r) 0 then (inl (proc_stdout r), w2)
  else (inr (RuntimeError ("Command failed (" ++ Z_str (returncode r) ++ "): "
                           ++ join " " cmd ++ nl ++ proc_stdout r)), w2).

(** [ensure_exists(path, kind)] *)
Definition ensure_exists (p : Path) (kind : string) : M unit :=
  if path_exists p then ret tt
  else raise (FileNotFoundError ("Missing " ++ kind ++ ": " ++ path_str p)).

Definition transcode_cmd (wav flac_out : Path) : list string :=
  ["ffmpeg"; "-y"; "-i"; path_str wav; "-c:a"; "flac"; "-sample_fmt"; "s32";
   "-ar"; "48000"; path_str flac_out].

(** [workdir / f"{idx:02d}.flac"] *)
Definition flac_name (workdir : Path) (idx : nat) : Path :=
  pdiv workdir (fmt02d idx ++ ".flac").

(** [f"file '{flac_out}'\n"] *)
Definition manifest_line (p : Path) : string :=
  "file " ++ quote ++ path_str p ++ quote ++ nl.

(** The body of [for idx, wav in enumerate(wavs, start=1)]. *)
Fixpoint transcode_loop (workdir list_path : Path) (idx : nat)
    (wavs : list Path) (flac_paths : list Path) : M (list Path) :=
  match wavs with
  | [] => ret flac_paths
  | wav :: rest =>
      let flac_out := flac_name workdir idx in
      run (transcode_cmd wav flac_out) ;;;
      append_text list_path (manifest_line flac_out) ;;;
      transcode_loop workdir list_path (S idx) rest (flac_paths ++ [flac_out])
  end.

(** [transcode_wavs_to_flacs(wavs, workdir)] *)
Definition transcode_wavs_to_flacs (wavs : list Path) (workdir : Path)
    : M (list Path * Path) :=
  let list_path := pdiv workdir "flac_list.txt" in
  write_text list_path "" ;;;
  flac_paths <- transcode_loop workdir list_path 1 wavs [] ;;
  ret (flac_paths, list_path).

Definition concat_cmd (list_path out_flac : Path) : list string :=
  ["ffmpeg"; "-y"; "-f"; "concat"; "-safe"; "0"; "-i"; path_str list_path;
   "-c:a"; "flac"; "-sample_fmt"; "s32"; "-ar"; "48000"; path_str out_flac].

(** [concat_flacs(list_path, out_flac)] *)
Definition concat_flacs (list_path out_flac : Path) : M unit :=
  run (concat_cmd list_path out_flac) ;;; ret tt.

Definition FRAMERATE : nat := 30.

Definition audio_codec (output : Path) : list string :=
  let ext := lower (suffix output) in
  if String.eqb ext ".mp4" then ["-c:a"; "aac"; "-b:a"; "320k"] else ["-c:a"; "copy"].

Definition render_cmd (cover audio output : Path) : list string :=
  ["ffmpeg"; "-y"; "-loop"; "1"; "-framerate"; nat_str FRAMERATE;
   "-i"; path_str cover; "-i"; path_str audio;
   "-c:v"; "h264_nvenc"; "-preset"; "p7"; "-rc"; "vbr_hq"; "-cq"; "17";
   "-b:v"; "8M"; "-maxrate"; "12M"; "-bufsize"; "24M"; "-profile:v"; "high";
   "-pix_fmt"; "yuv420p"; "-r"; nat_str FRAMERATE]
  ++ audio_codec output
  ++ ["-shortest"; "-movflags"; "+faststart"; path_str output].

(** [render_video(cover, audio, output)] *)
Definition render_video (cover audio output : Path) : M unit :=
  run (render_cmd cover audio output) ;;; ret tt.

(** [args = parser.parse_args()]: [argparse] prints the help or the
    usage and error itself, then raises [SystemExit(0)] or
    [SystemExit(2)]. *)
Definition parse_args (argv : list string) : M Args :=
  match argparse argv with
  | PDone a => ret a
  | PHelp t => modify (fun w => add_outs w t) ;;; raise (SystemExit (ExitCode 0))
  | PError t => modify (fun w => add_errs w t) ;;; raise (SystemExit (ExitCode 2))
  end.

(** Whether the path string [k] lies in the directory [d]. *)
Definition under (d : Path) (k : string) : bool :=
  orb (String.eqb k (path_str d)) (String.prefix (path_str d ++ "/") k).

(** [shutil.rmtree] of the temporary directory. *)
Definition cleanup (w : World) : World :=
  set_scratch (set_files w (fun k => if under mkdtemp k then None else files w k)) None.

(** [with tempfile.TemporaryDirectory() as tmpdir: body]: the directory is
    removed when the block is left, normally or by an exception. *)
Definition with_tempdir {A} (body : Path -> M A) : M A := fun w =>
  match body mkdtemp (set_scratch w (Some mkdtemp)) with
  | (r, w2) => (r, cleanup w2)
  end.

(** The block of [with tempfile.TemporaryDirectory() as tmpdir:]. *)
Definition tempdir_block (root cover : Path) (wavs : list Path) (args : Args)
    (workdir : Path) : M Path :=
  fl <- transcode_wavs_to_flacs wavs workdir ;;
  let listfile := snd fl in
  let concat_flac := pdiv workdir "album_concat.flac" in
  concat_flacs listfile concat_flac ;;;
  let output_video := resolve_in root (a_output args) in
  print ("Rendering final video -> " ++ path_name output_video) ;;;
  render_video cover concat_flac output_video ;;;
  ret output_video.

(** The body of [main()] after [args = parser.parse_args()]. *)
Definition run_album (args : Args) : M unit :=
  let root := resolve_input (a_input args) in
  ensure_exists root "input directory" ;;;
  let cover := resolve_in root (a_cover args) in
  ensure_exists cover "cover image" ;;;
  let wavs := filter is_file (sorted (glob root (a_pattern args))) in
  match wavs with
  | [] => raise (SystemExit (ExitMsg "No WAV files found."))
  | _ => ret tt
  end ;;;
  print ("Found " ++ nat_str (length wavs) ++ " WAV files. Concatenating audio...") ;;;
  output_video <- with_tempdir (tempdir_block root cover wavs args) ;;
  print "Done." ;;;
  print ("Output video: " ++ path_str output_video).

(** [main()] *)
Definition main (argv : list string) : M unit :=
  args <- parse_args argv ;;
  run_album args.

(** [if __name__ == "__main__": try: main() except Exception as exc: ...];
    an uncaught [SystemExit] ends the interpreter: an integer is the exit
    status, any other argument is printed on standard error and gives 1. *)
Definition toplevel (argv : list string) (w : World) : Outcome :=
  match main argv w with
  | (inl _, w') => mkOutcome 0 w'
  | (inr e, w') =>
      if is_Exception e then
        mkOutcome 1 (add_err w' ("Error: " ++ exn_str e))
      else match e with
           | SystemExit (ExitCode z) => mkOutcome z w'
           | _ => mkOutcome 1 (add_err w' (exn_str e))
           end
  end.

End Script.

(** ** Reading argument vectors *)

(** The value given to option [key]: the element after its first
    occurrence. *)
Fixpoint option_arg (key : string) (argv : list string) : option string :=
  match argv with
  | k :: (v :: _) as rest => if String.eqb k key then Some v else option_arg key rest
  | _ => None
  end.

Definition count_arg (key : string) (argv : list string) : nat :=
  List.length (filter (String.eqb key) argv).

(** The letter-case variants of [".mp4"]. *)
Definition mp4_variants : list string := [".mp4"; ".mP4"; ".Mp4"; ".MP4"].

(** Reading back a decimal rendering. *)
Fixpoint str_uint (s : string) : Decimal.uint :=
  match s with
  | EmptyString => Decimal.Nil
  | String c r =>
      if Ascii.eqb c "0" then Decimal.D0 (str_uint r)
      else if Ascii.eqb c "1" then Decimal.D1 (str_uint r)
      else if Ascii.eqb c "2" then Decimal.D2 (str_uint r)
      else if Ascii.eqb c "3" then Decimal.D3 (str_uint r)
      else if Ascii.eqb c "4" then Decimal.D4 (str_uint r)
      else if Ascii.eqb c "5" then Decimal.D5 (str_uint r)
      else if Ascii.eqb c "6" then Decimal.D6 (str_uint r)
      else if Ascii.eqb c "7" then Decimal.D7 (str_uint r)
      else if Ascii.eqb c "8" then Decimal.D8 (str_uint r)
      else if Ascii.eqb c "9" then Decimal.D9 (str_uint r)
      else Decimal.Nil
  end.

Fixpoint concat_str (l : list string) : string :=
  match l with
  | [] => ""
  | x :: r => x ++ concat_str r
  end.

(** ** The Normalizer's trace *)

(** The argument vectors the Normalizer issues for [wavs], numbering the
    outputs from [idx]. *)
Fixpoint norm_cmds (wd : Path) (idx : nat) (wavs : list Path) : list (list string) :=
  match wavs with
  | [] => []
  | wav :: r => transcode_cmd wav (flac_name wd idx) :: norm_cmds wd (S idx) r
  end.

(** The manifest lines of the intermediates [idx .. idx + n - 1]. *)
Definition manifest_lines (wd : Path) (idx n : nat) : list string :=
  map (fun i => manifest_line (flac_name wd i)) (seq idx n).

(** How many of [cmds] succeed before the first failure. *)
Fixpoint ok_prefix (proc : list string -> ProcResult) (cmds : list (list string)) : nat :=
  match cmds with
  | [] => 0
  | c :: r => if Z.eqb (returncode (proc c)) 0 then S (ok_prefix proc r) else 0
  end.

(** ** How [ffmpeg]'s concat demuxer reads a manifest

    [concat_read] follows [concat_parse_script] (libavformat/concatdec.c):
    [ff_read_line_to_bprint_overwrite] cuts the manifest into lines, a line
    ending at [\n], [\r], [\r\n] or a NUL byte; on each line [get_keyword]
    takes the directive; blank lines and lines whose keyword starts with
    [#] are skipped; a [file] line names the file [av_get_token]
    (libavutil/avstring.c) reads from the rest of the line.  Only [file]
    directives are modelled: any other keyword gives [None] (the demuxer
    rejects an unknown one), as do an empty file name and a manifest that
    names no file, both of which the demuxer rejects. *)

(** [" \t\r\n"]: [SPACE_CHARS] of the demuxer, [WHITESPACES] of
    [av_get_token]. *)
Definition is_space (c : ascii) : bool :=
  existsb (Ascii.eqb c) [" "%char; ascii_of_nat 9; ascii_of_nat 10; ascii_of_nat 13].

Definition is_line_end (c : ascii) : bool :=
  existsb (Ascii.eqb c) [ascii_of_nat 0; ascii_of_nat 10; ascii_of_nat 13].

(** One call of [read_line_to_bprint]: the line, and the input after its
    end ([None] when the input ran out first). *)
Fixpoint take_line (s : string) : string * option string :=
  match s with
  | EmptyString => (EmptyString, None)
  | String c r =>
      if Ascii.eqb c (ascii_of_nat 13) then
        (EmptyString, Some (match r with
                            | String d r' => if Ascii.eqb d (ascii_of_nat 10) then r' else r
                            | EmptyString => r
                            end))
      else if is_line_end c then (EmptyString, Some r)
      else let (l, rest) := take_line r in (String c l, rest)
  end.

(** The lines of the manifest; at the end of the input, an empty line is
    end of file.  Each line but the last consumes a character, so the
    length of the input plus one bounds the number of calls. *)
Fixpoint read_lines_fuel (fuel : nat) (s : string) : list string :=
  match fuel with
  | O => []
  | S fuel' =>
      match take_line s with
      | (l, None) => if String.eqb l "" then [] else [l]
      | (l, Some rest) => l :: read_lines_fuel fuel' rest
      end
  end.

Definition read_lines (s : string) : list string := read_lines_fuel (S (String.length s)) s.

(** [s += strspn(s, SPACE_CHARS)] *)
Fixpoint skip_space (s : string) : string :=
  match s with
  | String c r => if is_space c then skip_space r else s
  | EmptyString => EmptyString
  end.

(** The run before the first white space, and what follows it. *)
Fixpoint span_nonspace (s : string) : string * string :=
  match s with
  | String c r =>
      if is_space c then (EmptyString, s)
      else let (k, rest) := span_nonspace r in (String c k, rest)
  | EmptyString => (EmptyString, EmptyString)
  end.

(** [get_keyword]: skip white space, take the keyword up to the next white
    space and skip the white space after it. *)
Definition get_keyword (s : string) : string * string :=
  let (k, rest) := span_nonspace (skip_space s) in (k, skip_space rest).

(** The loop of [av_get_token(&s, SPACE_CHARS)]: the characters written,
    last first, and the length of the output at [end], the end of the
    last closed quote or escaped character; [inq] is inside a quote.  Out
    of quotes, white space ends the token, a backslash takes the next
    character literally (a backslash at the end of the input is kept), and
    a single quote opens a run copied literally up to the next one. *)
Fixpoint av_token_loop (s : string) (inq : bool) (out : list ascii) (endl : nat)
    : list ascii * nat :=
  match s with
  | EmptyString => (out, endl)
  | String c r =>
      if inq then
        if Ascii.eqb c (ascii_of_nat 39) then av_token_loop r false out (length out)
        else av_token_loop r true (c :: out) endl
      else if is_space c then (out, endl)
      else if Ascii.eqb c (ascii_of_nat 92) then
        match r with
        | EmptyString => (c :: out, endl)
        | String d r' => av_token_loop r' false (d :: out) (S (length out))
        end
      else if Ascii.eqb c (ascii_of_nat 39) then av_token_loop r true out endl
      else av_token_loop r false (c :: out) endl
  end.

(** The final [do *out-- = 0; while (out >= end && strspn(out, WHITESPACES))]:
    trailing white space past [end] is dropped. *)
Fixpoint trim_out (out : list ascii) (endl : nat) : list ascii :=
  match out with
  | c :: out' => if andb (Nat.ltb endl (length out)) (is_space c) then trim_out out' endl else out
  | [] => []
  end.

(** [av_get_token(&s, SPACE_CHARS)], which first skips white space. *)
Definition av_get_token (s : string) : string :=
  let (out, endl) := av_token_loop (skip_space s) false [] 0 in
  string_of_list_ascii (rev (trim_out out endl)).

Definition starts_with_hash (s : string) : bool :=
  match s with
  | String c _ => Ascii.eqb c "#"
  | EmptyString => false
  end.

Fixpoint concat_files (lines : list string) : option (list string) :=
  match lines with
  | [] => Some []
  | line :: rest =>
      let (kw, args) := get_keyword line in
      if orb (String.eqb kw "") (starts_with_hash kw) then concat_files rest
      else if String.eqb kw "file" then
        let name := av_get_token args in
        if String.eqb name "" then None
        else match concat_files rest with
             | Some l => Some (name :: l)
             | None => None
             end
      else None
  end.

(** The files a manifest names, in order. *)
Definition concat_read (manifest : string) : option (list string) :=
  match concat_files (read_lines manifest) with
  | Some [] => None
  | r => r
  end.

(** The path a one-line manifest names, as the concat demuxer reads it. *)
Definition concat_line_path (line : string) : option string :=
  match concat_read line with
  | Some [p] => Some p
  | _ => None
  end.

(** [str(d / name)] is the directory's rendering followed by [name]. *)
Definition dir_prefix (d : Path) : string :=
  match parts d with [] => "/" | _ => path_str d ++ "/" end.

(** ** A concrete setting for the examples *)

Definition ex_resolve_input (s : string) : Path := mkPath ["music"; s].
Definition ex_resolve_in (r : Path) (s : string) : Path := pdiv r s.
Definition ex_all (p : Path) : bool := true.
Definition ex_glob_two (r : Path) (pat : string) : list Path := [pdiv r "b.wav"; pdiv r "a.wav"].
Definition ex_tmp : Path := mkPath ["tmp"; "tmpk2x9"].
Definition ex_proc_ok (c : list string) : ProcResult := mkProc 0 "" (Some "data").
Definition ex_proc_fail (c : list string) : ProcResult := mkProc 1 "Invalid data found" None.
(** Fails on the second track only. *)
Definition ex_proc_second (c : list string) : ProcResult :=
  if String.eqb (last c "") "/tmp/tmpk2x9/02.flac"
  then mkProc 1 "Invalid data found" None else mkProc 0 "" (Some "data").
Definition ex_world : World := mkWorld (fun _ => None) None [] [] [].
Definition ex_argv : list string := ["-i"; "album"].
(** What [argparse] answers, on an 80-column terminal, for the argument
    vectors of the examples: the input directory alone is accepted with
    the defaults, and the empty vector lacks the required [--input]; other
    vectors lie outside the examples and get the usage alone. *)
Definition ex_usage : string :=
  "usage: render_album.py [-h] --input INPUT [--cover COVER] [--pattern PATTERN]" ++ nl ++
  "                       [--output OUTPUT]".
Definition ex_argparse (argv : list string) : parse_res :=
  match argv with
  | ["-i"; d] => PDone (mkArgs d "cover.png" "*.wav" "FULL-GPU.mp4")
  | [] => PError [ex_usage;
                  "render_album.py: error: the following arguments are required: --input/-i"]
  | _ => PError [ex_usage]
  end.
Definition ex_args : Args := mkArgs "album" "cover.png" "*.wav" "FULL-GPU.mp4".
(** Fails on the command that writes [target] only. *)
Definition ex_proc_fail_on (target : string) (c : list string) : ProcResult :=
  if String.eqb (last c "") target
  then mkProc 1 "Invalid data found" None else mkProc 0 "" (Some "data").
(** The example world with one source file in place. *)
Definition ex_world_src : World :=
  mkWorld (fs_write (fun _ => None) "/music/album/a.wav" "pcm") None [] [] [].

(** ** Facts about the string helpers *)

Ltac ascii_cases c :=
  destruct c as [[] [] [] [] [] [] [] []]; vm_compute;
  intros H; first [ discriminate H | reflexivity | left; reflexivity | right; reflexivity ].

Lemma lower_ascii_dot (c : ascii) : lower_ascii c = "."%char -> c = "."%char.
Proof. ascii_cases c. Qed.

Lemma lower_ascii_4 (c : ascii) : lower_ascii c = "4"%char -> c = "4"%char.
Proof. ascii_cases c. Qed.

Lemma lower_ascii_m (c : ascii) : lower_ascii c = "m"%char -> c = "m"%char \/ c = "M"%char.
Proof. ascii_cases c. Qed.

Lemma lower_ascii_p (c : ascii) : lower_ascii c = "p"%char -> c = "p"%char \/ c = "P"%char.
Proof. ascii_cases c. Qed.

Lemma lower_is_mp4 (s : string) : lower s = ".mp4" <-> In s mp4_variants.
Proof.
  split.
  - destruct s as [|c1 [|c2 [|c3 [|c4 [|c5 s]]]]]; simpl; intros H; try discriminate.
    injection H as H1 H2 H3 H4.
    apply lower_ascii_dot in H1. apply lower_ascii_4 in H4.
    apply lower_ascii_m in H2. apply lower_ascii_p in H3.
    subst c1 c4.
    destruct H2 as [-> | ->]; destruct H3 as [-> | ->]; simpl; tauto.
  - simpl. intros [H|[H|[H|[H|[]]]]]; subst; reflexivity.
Qed.

Lemma string_length_append (a b : string) :
  String.length (a ++ b) = String.length a + String.length b.
Proof. induction a; simpl; auto. Qed.

Lemma append_cancel_l (a b c : string) : a ++ b = a ++ c -> b = c.
Proof. induction a; simpl; auto. intros H. injection H. auto. Qed.

Lemma append_cancel_r (a b c : string) : a ++ c = b ++ c -> a = b.
Proof.
  revert b. induction a as [|x a IH]; intros [|y b] H; simpl in H; auto.
  - apply (f_equal String.length) in H. simpl in H.
    rewrite string_length_append in H. lia.
  - apply (f_equal String.length) in H. simpl in H.
    rewrite string_length_append in H. lia.
  - injection H as -> H. f_equal. auto.
Qed.

Lemma append_assoc_str (a b c : string) : (a ++ b) ++ c = a ++ (b ++ c).
Proof. induction a; simpl; congruence. Qed.

Lemma path_str_cons (p : Path) : exists t, path_str p = String "/" t.
Proof. exists (join "/" (parts p)). reflexivity. Qed.

Lemma render_audio_args (cover audio output : Path) :
  let argv := render_cmd cover audio output in
  count_arg "-c:a" argv = 1 /\
  (if String.eqb (lower (suffix output)) ".mp4"
   then option_arg "-c:a" argv = Some "aac" /\ option_arg "-b:a" argv = Some "320k"
   else option_arg "-c:a" argv = Some "copy" /\ count_arg "-b:a" argv = 0).
Proof.
  destruct (path_str_cons cover) as [tc Hc].
  destruct (path_str_cons audio) as [ta Ha].
  destruct (path_str_cons output) as [to Ho].
  unfold render_cmd, audio_codec, count_arg.
  destruct (String.eqb (lower (suffix output)) ".mp4");
    rewrite Hc, Ha, Ho; simpl; auto.
Qed.

Lemma append_empty_r (a : string) : a ++ "" = a.
Proof. induction a; simpl; congruence. Qed.

Lemma str_uint_uint_str (u : Decimal.uint) : str_uint (uint_str u) = u.
Proof. induction u; simpl; congruence. Qed.

Lemma of_uint_D0 (u : Decimal.uint) : Nat.of_uint (Decimal.D0 u) = Nat.of_uint u.
Proof.
  rewrite <- DecimalNat.Unsigned.of_uint_norm, DecimalFacts.unorm_D0.
  apply DecimalNat.Unsigned.of_uint_norm.
Qed.

Lemma fmt02d_read (n : nat) : Nat.of_uint (str_uint (fmt02d n)) = n.
Proof.
  unfold fmt02d, nat_str.
  destruct (Nat.ltb n 10); simpl; rewrite ?str_uint_uint_str, ?of_uint_D0;
    apply DecimalNat.Unsigned.of_to.
Qed.

Lemma fmt02d_inj (n m : nat) : fmt02d n = fmt02d m -> n = m.
Proof.
  intros H. rewrite <- (fmt02d_read n), <- (fmt02d_read m). now rewrite H.
Qed.

Lemma flac_name_inj (wd : Path) (i j : nat) : flac_name wd i = flac_name wd j -> i = j.
Proof.
  unfold flac_name, pdiv. intros H. injection H as H.
  apply app_inj_tail in H as [_ H].
  apply append_cancel_r in H. now apply fmt02d_inj.
Qed.

Lemma join_snoc (sep s : string) (l : list string) :
  join sep (l ++ [s]) = match l with [] => s | _ => join sep l ++ sep ++ s end.
Proof.
  induction l as [|x l IH]; [reflexivity|].
  simpl. destruct l as [|y l].
  - reflexivity.
  - change (app (y :: l) [s]) with (y :: app l [s]).
    change (app (y :: l) [s]) with (y :: app l [s]) in IH.
    destruct (app l [s]) eqn:E; [destruct l; discriminate|].
    rewrite IH. now rewrite !append_assoc_str.
Qed.

Lemma path_str_pdiv (d : Path) (s : string) : path_str (pdiv d s) = dir_prefix d ++ s.
Proof.
  unfold dir_prefix, path_str, pdiv. simpl parts. rewrite join_snoc.
  destruct (parts d); [reflexivity|]. now rewrite !append_assoc_str.
Qed.

Lemma manifest_not_flac (wd : Path) (i : nat) :
  path_str (pdiv wd "flac_list.txt") <> path_str (flac_name wd i).
Proof.
  unfold flac_name. rewrite !path_str_pdiv. intros H.
  apply append_cancel_l in H.
  unfold fmt02d, nat_str in H. destruct (Nat.ltb i 10); [discriminate|].
  destruct (Nat.to_uint i); discriminate.
Qed.

Lemma NoDup_flac_names (wd : Path) (idx n : nat) : NoDup (map (flac_name wd) (seq idx n)).
Proof.
  apply NoDup_map_NoDup_ForallPairs; [|apply seq_NoDup].
  intros i j _ _. apply flac_name_inj.
Qed.

(** One step of the Normalizer loop, by cases on the transcode's exit code. *)
Lemma transcode_loop_cons proc wd lp idx wav rest acc w :
  transcode_loop proc wd lp idx (wav :: rest) acc w =
  (let c := transcode_cmd wav (flac_name wd idx) in
   let r := proc c in
   let w1 := add_spawned w c in
   let w2 := match proc_output r with
             | Some v => set_files w1 (fs_write (files w1) (last c "") v)
             | None => w1
             end in
   if Z.eqb (returncode r) 0 then
     transcode_loop proc wd lp (S idx) rest (app acc [flac_name wd idx])
       (set_files w2 (fs_write (files w2) (path_str lp)
          (match files w2 (path_str lp) with Some o => o | None => "" end
           ++ manifest_line (flac_name wd idx))))
   else (inr (RuntimeError ("Command failed (" ++ Z_str (returncode r) ++ "): "
                           ++ join " " c ++ nl ++ proc_stdout r)), w2)).
Proof.
  simpl. unfold bind at 1, run. cbv zeta.
  destruct (Z.eqb (returncode (proc (transcode_cmd wav (flac_name wd idx)))) 0); reflexivity.
Qed.

Lemma transcode_loop_trace proc wd lp wavs :
  (forall i, path_str lp <> path_str (flac_name wd i)) ->
  forall idx acc w old,
  files w (path_str lp) = Some old ->
  let k := ok_prefix proc (norm_cmds wd idx wavs) in
  let res := transcode_loop proc wd lp idx wavs acc w in
  spawned (snd res) = app (spawned w) (firstn (S k) (norm_cmds wd idx wavs)) /\
  files (snd res) (path_str lp)
    = Some (old ++ concat_str (firstn k (manifest_lines wd idx (length wavs)))) /\
  scratch (snd res) = scratch w /\
  out_lines (snd res) = out_lines w /\
  err_lines (snd res) = err_lines w /\
  (k = length wavs -> fst res = inl (app acc (map (flac_name wd) (seq idx (length wavs))))) /\
  (k < length wavs -> exists m, fst res = inr (RuntimeError m)).
Proof.
  intros Hne. induction wavs as [|wav rest IH]; intros idx acc w old Hold; cbv zeta.
  - simpl. rewrite app_nil_r, append_empty_r. repeat split; auto.
    + intros _. now rewrite app_nil_r.
    + intros Hk. lia.
  - rewrite transcode_loop_cons. cbv zeta.
    set (c := transcode_cmd wav (flac_name wd idx)).
    set (w2 := match proc_output (proc c) with
               | Some v => set_files (add_spawned w c) (fs_write (files (add_spawned w c)) (last c "") v)
               | None => add_spawned w c
               end).
    assert (Hw2f : files w2 (path_str lp) = Some old /\ spawned w2 = app (spawned w) [c]
                   /\ scratch w2 = scratch w /\ out_lines w2 = out_lines w
                   /\ err_lines w2 = err_lines w).
    { unfold w2. destruct (proc_output (proc c)); simpl; repeat split; auto.
      unfold fs_write.
      destruct (String.eqb_spec (path_str lp) (path_str (flac_name wd idx))) as [E|_];
        [exfalso; exact (Hne idx E)|exact Hold]. }
    destruct Hw2f as (Hf & Hs & Hsc & Ho & He).
    simpl norm_cmds. simpl ok_prefix. fold c.
    destruct (Z.eqb (returncode (proc c)) 0) eqn:Erc.
    + set (w3 := set_files w2 _).
      assert (H3 : files w3 (path_str lp) = Some (old ++ manifest_line (flac_name wd idx))).
      { unfold w3. simpl. unfold fs_write. rewrite String.eqb_refl, Hf. reflexivity. }
      destruct (IH (S idx) (app acc [flac_name wd idx]) w3 _ H3)
        as (IHs & IHf & IHsc & IHo & IHe & IHok & IHko).
      cbv zeta in *.
      repeat split.
      * rewrite IHs. simpl spawned. rewrite Hs. simpl. now rewrite <- app_assoc.
      * rewrite IHf. simpl length. unfold manifest_lines. simpl seq. simpl map.
        simpl firstn. simpl concat_str. now rewrite append_assoc_str.
      * rewrite IHsc. simpl. exact Hsc.
      * rewrite IHo. simpl. exact Ho.
      * rewrite IHe. simpl. exact He.
      * intros Hk. simpl length in Hk. rewrite IHok by lia.
        simpl seq. simpl map. now rewrite <- app_assoc.
      * intros Hk. simpl length in Hk. apply IHko. lia.
    + simpl. repeat split; auto.
      * now rewrite append_empty_r.
      * intros Hk. discriminate.
      * intros _. eexists. reflexivity.
Qed.

Lemma normalizer_trace proc wavs wd w :
  let lp := pdiv wd "flac_list.txt" in
  let k := ok_prefix proc (norm_cmds wd 1 wavs) in
  let res := transcode_wavs_to_flacs proc wavs wd w in
  spawned (snd res) = app (spawned w) (firstn (S k) (norm_cmds wd 1 wavs)) /\
  files (snd res) (path_str lp)
    = Some (concat_str (firstn k (manifest_lines wd 1 (length wavs)))) /\
  scratch (snd res) = scratch w /\
  out_lines (snd res) = out_lines w /\
  err_lines (snd res) = err_lines w /\
  (k = length wavs -> fst res = inl (map (flac_name wd) (seq 1 (length wavs)), lp)) /\
  (k < length wavs -> exists m, fst res = inr (RuntimeError m)).
Proof.
  cbv zeta.
  set (lp := pdiv wd "flac_list.txt").
  set (w1 := set_files w (fs_write (files w) (path_str lp) "")).
  assert (E : transcode_wavs_to_flacs proc wavs wd w =
              match transcode_loop proc wd lp 1 wavs [] w1 with
              | (inl r, w') => (inl (r, lp), w')
              | (inr e, w') => (inr e, w')
              end) by reflexivity.
  rewrite E.
  assert (H1 : files w1 (path_str lp) = Some "").
  { unfold w1. simpl. unfold fs_write. now rewrite String.eqb_refl. }
  destruct (transcode_loop_trace proc wd lp wavs (manifest_not_flac wd) 1 [] w1 "" H1)
    as (Hs & Hf & Hsc & Ho & He & Hok & Hko).
  cbv zeta in *.
  destruct (transcode_loop proc wd lp 1 wavs [] w1) as [[r|e] w'];
    simpl in *; repeat split; auto.
  - intros Hk. specialize (Hok Hk). inversion Hok. reflexivity.
  - intros Hk. destruct (Hko Hk) as [m Hm]. discriminate.
  - intros Hk. specialize (Hok Hk). discriminate.
  - intros Hk. destruct (Hko Hk) as [m Hm]. inversion Hm. eauto.
Qed.

Lemma nth_error_norm_cmds wd wavs : forall idx i,
  nth_error (norm_cmds wd idx wavs) i =
  match nth_error wavs i with
  | Some wav => Some (transcode_cmd wav (flac_name wd (idx + i)))
  | None => None
  end.
Proof.
  induction wavs as [|wav rest IH]; intros idx [|i]; simpl; auto.
  - now rewrite Nat.add_0_r.
  - rewrite IH. now rewrite Nat.add_succ_r.
Qed.

Lemma length_norm_cmds wd wavs : forall idx, length (norm_cmds wd idx wavs) = length wavs.
Proof. induction wavs; simpl; auto. Qed.

Lemma ok_prefix_all proc cmds :
  (forall c, In c cmds -> returncode (proc c) = 0%Z) -> ok_prefix proc cmds = length cmds.
Proof.
  induction cmds as [|c r IH]; simpl; intros H; auto.
  rewrite (H c (or_introl eq_refl)). simpl. f_equal. auto.
Qed.

Lemma ok_prefix_at proc cmds : forall j,
  j < length cmds ->
  (forall i, i < j -> returncode (proc (nth i cmds [])) = 0%Z) ->
  returncode (proc (nth j cmds [])) <> 0%Z ->
  ok_prefix proc cmds = j.
Proof.
  induction cmds as [|c r IH]; intros j Hj Hpre Hfail; simpl in *; [lia|].
  destruct j as [|j].
  - now rewrite (proj2 (Z.eqb_neq _ _) Hfail).
  - rewrite (Hpre 0 ltac:(lia)). simpl. f_equal. apply IH; [lia| |exact Hfail].
    intros i Hi. apply (Hpre (S i)). lia.
Qed.

Lemma transcode_cmd_options wav out :
  let c := transcode_cmd wav out in
  nth 1 c "" = "-y" /\
  option_arg "-c:a" c = Some "flac" /\
  option_arg "-sample_fmt" c = Some "s32" /\
  option_arg "-ar" c = Some "48000" /\
  last c "" = path_str out.
Proof.
  destruct (path_str_cons wav) as [t Ht].
  unfold transcode_cmd. rewrite Ht. simpl. repeat split.
Qed.

(** ** The Normalizer *)

(** C2: every encoder invocation of the Normalizer re-encodes the source
    losslessly to FLAC with 32-bit sample storage ([-sample_fmt s32], which
    [ffmpeg]'s FLAC encoder stores as 24 bits per sample, the "24-bit" of
    the docstring) at 48 kHz ([-ar 48000]), writes the numbered
    intermediate of its position, and passes [-y] to overwrite it. *)
Theorem normalizer_flac_24_48 proc wavs wd w :
  let res := transcode_wavs_to_flacs proc wavs wd w in
  exists issued, spawned (snd res) = app (spawned w) issued /\
  forall i c, nth_error issued i = Some c ->
    exists wav, nth_error wavs i = Some wav /\
      c = transcode_cmd wav (flac_name wd (S i)) /\
      nth 1 c "" = "-y" /\
      option_arg "-c:a" c = Some "flac" /\
      option_arg "-sample_fmt" c = Some "s32" /\
      option_arg "-ar" c = Some "48000" /\
      last c "" = path_str (flac_name wd (S i)).
Proof.
  cbv zeta.
  destruct (normalizer_trace proc wavs wd w) as (Hs & _).
  eexists. split; [exact Hs|].
  intros i c Hc. rewrite nth_error_firstn in Hc.
  destruct (Nat.ltb i _); [|discriminate].
  rewrite nth_error_norm_cmds in Hc.
  destruct (nth_error wavs i) as [wav|] eqn:Ew; [|discriminate].
  injection Hc as <-. exists wav. split; [reflexivity|]. split; [reflexivity|].
  apply transcode_cmd_options.
Qed.

(** C5: over [N] sources, the Normalizer's [i]-th command transcodes the
    [i]-th source (in the order [main] passes them: [sorted] by path) to
    [workdir/NN.flac] with [NN = f"{i:02d}"], 1-based.  When all [N]
    transcodes succeed it returns [N] distinct intermediates in that order
    and the manifest holds the [N] lines in that order; when the [k]-th
    fails after [k - 1] successes, the manifest holds exactly the lines of
    the first [k - 1] intermediates. *)
Theorem normalizer_numbered_outputs proc wavs wd w :
  let N := length wavs in
  let cmds := norm_cmds wd 1 wavs in
  let lp := pdiv wd "flac_list.txt" in
  let res := transcode_wavs_to_flacs proc wavs wd w in
  length cmds = N /\
  (forall i wav, nth_error wavs i = Some wav ->
     nth_error cmds i = Some (transcode_cmd wav (pdiv wd (fmt02d (S i) ++ ".flac")))) /\
  ((forall c, In c cmds -> returncode (proc c) = 0%Z) ->
     fst res = inl (map (flac_name wd) (seq 1 N), lp) /\
     NoDup (map (flac_name wd) (seq 1 N)) /\
     files (snd res) (path_str lp) = Some (concat_str (manifest_lines wd 1 N))) /\
  (forall k, 1 <= k <= N ->
     (forall j, j < k - 1 -> returncode (proc (nth j cmds [])) = 0%Z) ->
     returncode (proc (nth (k - 1) cmds [])) <> 0%Z ->
     (exists m, fst res = inr (RuntimeError m)) /\
     files (snd res) (path_str lp)
       = Some (concat_str (firstn (k - 1) (manifest_lines wd 1 N)))).
Proof.
  cbv zeta.
  destruct (normalizer_trace proc wavs wd w) as (_ & Hf & _ & _ & _ & Hok & Hko).
  cbv zeta in *.
  split; [apply length_norm_cmds|].
  split.
  { intros i wav Hw. rewrite nth_error_norm_cmds, Hw. reflexivity. }
  split.
  - intros Hall. pose proof (ok_prefix_all proc _ Hall) as Hk.
    rewrite length_norm_cmds in Hk.
    split; [now apply Hok|]. split; [apply NoDup_flac_names|].
    rewrite Hf, Hk. f_equal. f_equal. apply firstn_all2.
    unfold manifest_lines. rewrite length_map, length_seq. lia.
  - intros k Hk Hpre Hfail.
    assert (Hp : ok_prefix proc (norm_cmds wd 1 wavs) = k - 1).
    { apply ok_prefix_at; auto. rewrite length_norm_cmds. lia. }
    split; [apply Hko; lia|]. now rewrite Hf, Hp.
Qed.

Lemma firstn_seq_le (k n start : nat) : k <= n -> firstn k (seq start n) = seq start k.
Proof.
  revert n start. induction k as [|k IH]; intros [|n] start Hk; simpl; try lia; auto.
  f_equal. apply IH. lia.
Qed.

Lemma ok_prefix_le proc cmds : ok_prefix proc cmds <= length cmds.
Proof.
  induction cmds as [|c r IH]; simpl; [lia|].
  destruct (Z.eqb (returncode (proc c)) 0); simpl; lia.
Qed.

(** C10: the Normalizer truncates the manifest before its first transcode
    (what the file held before the run plays no part) and each successful
    transcode [i] adds the line [file '<path>'] and a newline with the
    intermediate's path copied verbatim, without escaping; a temporary
    directory whose path contains a single quote yields a line that the
    concat demuxer reads as a different path. *)
Theorem manifest_verbatim_lines proc wavs wd w :
  let lp := pdiv wd "flac_list.txt" in
  let k := ok_prefix proc (norm_cmds wd 1 wavs) in
  let res := transcode_wavs_to_flacs proc wavs wd w in
  files (snd res) (path_str lp)
    = Some (concat_str (map (fun i => "file '" ++ path_str (flac_name wd i) ++ "'" ++ nl)
                            (seq 1 k))) /\
  (exists wd' i,
     (exists a b, path_str (flac_name wd' i) = a ++ "'" ++ b) /\
     concat_line_path (manifest_line (flac_name wd' i)) <> Some (path_str (flac_name wd' i))).
Proof.
  cbv zeta. split.
  - destruct (normalizer_trace proc wavs wd w) as (_ & Hf & _). cbv zeta in Hf.
    rewrite Hf. unfold manifest_lines. rewrite firstn_map, firstn_seq_le.
    + reflexivity.
    + pose proof (ok_prefix_le proc (norm_cmds wd 1 wavs)) as H.
      rewrite length_norm_cmds in H. exact H.
  - exists (mkPath ["tmp"; "it's"]), 1. split.
    + exists "/tmp/it", "s/01.flac". reflexivity.
    + vm_compute. discriminate.
Qed.

(** ** The process-invocation helper *)


(** ** What a run of the script does *)

(** Every command carries [-y] as its first option. *)
Definition yflag (c : list string) : Prop := nth 1 c "" = "-y".

(** What the album body may do to the world: spawn commands with [-y], and
    write nothing on standard error. *)
Definition Step (w w' : World) : Prop :=
  err_lines w' = err_lines w /\
  exists l, spawned w' = app (spawned w) l /\ Forall yflag l.

Lemma Step_refl w : Step w w.
Proof. split; [reflexivity|]. exists []. now rewrite app_nil_r. Qed.

Lemma Step_trans w1 w2 w3 : Step w1 w2 -> Step w2 w3 -> Step w1 w3.
Proof.
  intros [E1 [l1 [S1 F1]]] [E2 [l2 [S2 F2]]]. split; [congruence|].
  exists (app l1 l2). split; [rewrite S2, S1; symmetry; apply app_assoc|].
  apply Forall_app; auto.
Qed.

(** A computation that only takes [Step]s and only raises [RuntimeError]. *)
Definition Safe {A} (m : M A) : Prop :=
  forall w, Step w (snd (m w)) /\
            forall e, fst (m w) = inr e -> exists msg, e = RuntimeError msg.

Lemma Safe_ret {A} (a : A) : Safe (ret a).
Proof. intros w. split; [apply Step_refl|]. intros e H. discriminate. Qed.

Lemma Safe_bind {A B} (m : M A) (k : A -> M B) :
  Safe m -> (forall a, Safe (k a)) -> Safe (bind m k).
Proof.
  intros Hm Hk w. unfold bind. destruct (Hm w) as [S1 E1].
  destruct (m w) as [[a|e] w1]; simpl in *.
  - destruct (Hk a w1) as [S2 E2]. split; [eapply Step_trans; eauto|exact E2].
  - split; [exact S1|]. intros e' H. injection H as <-. now apply E1.
Qed.

Lemma Safe_modify (f : World -> World) : (forall w, Step w (f w)) -> Safe (modify f).
Proof. intros Hf w. split; [apply Hf|]. intros e H. discriminate. Qed.

Lemma Safe_print l : Safe (print l).
Proof. apply Safe_modify. intros w. split; [reflexivity|]. exists []. simpl. now rewrite app_nil_r. Qed.

Lemma Step_set_files w fs : Step w (set_files w fs).
Proof. split; [reflexivity|]. exists []. simpl. now rewrite app_nil_r. Qed.

Lemma Safe_write p v : Safe (write_text p v).
Proof. apply Safe_modify. intros w. apply Step_set_files. Qed.

Lemma Safe_append p v : Safe (append_text p v).
Proof. apply Safe_modify. intros w. apply Step_set_files. Qed.

Lemma Safe_run proc cmd : yflag cmd -> Safe (run proc cmd).
Proof.
  intros Hy w. unfold run. cbv zeta.
  assert (St : Step w (match proc_output (proc cmd) with
                       | Some c => set_files (add_spawned w cmd)
                                     (fs_write (files (add_spawned w cmd)) (last cmd "") c)
                       | None => add_spawned w cmd
                       end)).
  { split; [destruct (proc_output (proc cmd)); reflexivity|].
    exists [cmd]. split; [destruct (proc_output (proc cmd)); reflexivity|].
    constructor; [exact Hy|constructor]. }
  destruct (Z.eqb (returncode (proc cmd)) 0); simpl; split; auto.
  - intros e H. discriminate.
  - intros e H. injection H as <-. eauto.
Qed.

Lemma Safe_transcode_loop proc wd lp wavs : forall idx acc,
  Safe (transcode_loop proc wd lp idx wavs acc).
Proof.
  induction wavs as [|wav rest IH]; intros idx acc; simpl.
  - apply Safe_ret.
  - apply Safe_bind; [apply Safe_run; reflexivity|]. intros ?.
    apply Safe_bind; [apply Safe_append|]. intros ?. apply IH.
Qed.

Lemma Safe_transcode proc wavs wd : Safe (transcode_wavs_to_flacs proc wavs wd).
Proof.
  unfold transcode_wavs_to_flacs. cbv zeta.
  apply Safe_bind; [apply Safe_write|]. intros ?.
  apply Safe_bind; [apply Safe_transcode_loop|]. intros ?. apply Safe_ret.
Qed.

Lemma Safe_concat proc lp out : Safe (concat_flacs proc lp out).
Proof.
  unfold concat_flacs. apply Safe_bind; [apply Safe_run; reflexivity|]. intros ?. apply Safe_ret.
Qed.

Lemma Safe_render proc cover audio out : Safe (render_video proc cover audio out).
Proof.
  unfold render_video. apply Safe_bind; [apply Safe_run; reflexivity|]. intros ?. apply Safe_ret.
Qed.

Lemma Safe_tempdir_block proc resolve_in root cover wavs args workdir :
  Safe (tempdir_block proc resolve_in root cover wavs args workdir).
Proof.
  unfold tempdir_block. cbv zeta.
  apply Safe_bind; [apply Safe_transcode|]. intros fl.
  apply Safe_bind; [apply Safe_concat|]. intros ?.
  apply Safe_bind; [apply Safe_print|]. intros ?.
  apply Safe_bind; [apply Safe_render|]. intros ?. apply Safe_ret.
Qed.

Lemma Step_scratch w s : Step w (set_scratch w s).
Proof. split; [reflexivity|]. exists []. simpl. now rewrite app_nil_r. Qed.

Lemma Step_cleanup tmp w : Step w (cleanup tmp w).
Proof. split; [reflexivity|]. exists []. simpl. now rewrite app_nil_r. Qed.

Lemma Step_out w l : Step w (add_out w l).
Proof. split; [reflexivity|]. exists []. simpl. now rewrite app_nil_r. Qed.

Section Runs.

Variable proc : list string -> ProcResult.
Variable resolve_input : string -> Path.
Variable resolve_in : Path -> string -> Path.
Variable path_exists : Path -> bool.
Variable is_file : Path -> bool.
Variable glob : Path -> string -> list Path.
Variable mkdtemp : Path.

Local Abbreviation album := (run_album proc resolve_input resolve_in path_exists is_file glob mkdtemp).
Local Abbreviation block := (tempdir_block proc resolve_in).

Lemma tempdir_block_returns root cover wavs args workdir w p :
  fst (block root cover wavs args workdir w) = inl p -> p = resolve_in root (a_output args).
Proof.
  unfold tempdir_block. cbv zeta.
  cbv [bind ret print modify concat_flacs render_video].
  destruct (transcode_wavs_to_flacs proc wavs workdir w) as [[fl|e] w1]; [|discriminate].
  destruct (run proc _ w1) as [[o1|e] w2]; [|discriminate].
  destruct (run proc _ _) as [[o2|e] w3]; [|discriminate].
  simpl. intros H. injection H as <-. reflexivity.
Qed.

Lemma run_album_outcome args w :
  let root := resolve_input (a_input args) in
  let res := album args w in
  Step w (snd res) /\
  match fst res with
  | inl _ => last (out_lines (snd res)) ""
             = "Output video: " ++ path_str (resolve_in root (a_output args))
  | inr e => (exists m, e = RuntimeError m \/ e = FileNotFoundError m)
             \/ e = SystemExit (ExitMsg "No WAV files found.")
  end.
Proof.
  cbv zeta. unfold run_album.
  cbv [bind ret raise print modify ensure_exists with_tempdir].
  destruct (path_exists (resolve_input (a_input args))); cbv beta iota;
    [|split; [apply Step_refl|left; eauto]].
  destruct (path_exists (resolve_in (resolve_input (a_input args)) (a_cover args))); cbv beta iota;
    [|split; [apply Step_refl|left; eauto]].
  destruct (filter is_file (sorted (glob (resolve_input (a_input args)) (a_pattern args))))
    as [|x xs]; cbv beta iota; [split; [apply Step_refl|right; reflexivity]|].
  match goal with
  | |- context [set_scratch (add_out w ?l) (Some mkdtemp)] =>
      set (w1 := set_scratch (add_out w l) (Some mkdtemp))
  end.
  assert (S1 : Step w w1) by (eapply Step_trans; [apply Step_out|apply Step_scratch]).
  destruct (Safe_tempdir_block proc resolve_in (resolve_input (a_input args))
              (resolve_in (resolve_input (a_input args)) (a_cover args)) (x :: xs) args mkdtemp w1)
    as [S2 E2].
  destruct (tempdir_block proc resolve_in _ _ (x :: xs) args mkdtemp w1) as [[p|e] w2] eqn:Eb;
    simpl in *.
  - split.
    + eapply Step_trans; [exact S1|]. eapply Step_trans; [exact S2|].
      eapply Step_trans; [apply Step_cleanup|].
      eapply Step_trans; apply Step_out.
    + assert (Ep : fst (block (resolve_input (a_input args))
                        (resolve_in (resolve_input (a_input args)) (a_cover args))
                        (x :: xs) args mkdtemp w1) = inl p) by (now rewrite Eb).
      pose proof (tempdir_block_returns _ _ _ _ _ _ _ Ep) as ->.
      simpl. apply last_last.
  - split; [eapply Step_trans; [exact S1|eapply Step_trans; [exact S2|apply Step_cleanup]]|].
    left. destruct (E2 e eq_refl) as [m ->]. eauto.
Qed.




Lemma run_album_cleans_scratch args w :
  path_exists (resolve_input (a_input args)) = true ->
  path_exists (resolve_in (resolve_input (a_input args)) (a_cover args)) = true ->
  filter is_file (sorted (glob (resolve_input (a_input args)) (a_pattern args))) <> [] ->
  let w' := snd (album args w) in
  scratch w' = None /\ forall k, under mkdtemp k = true -> files w' k = None.
Proof.
  intros H1 H2 H3. cbv zeta. unfold run_album. cbv zeta.
  cbv [bind ret raise print modify ensure_exists with_tempdir]. rewrite H1, H2.
  destruct (filter is_file (sorted (glob (resolve_input (a_input args)) (a_pattern args))))
    as [|x xs]; [contradiction|]. cbv beta iota.
  destruct (tempdir_block proc resolve_in _ _ _ args mkdtemp _) as [[p|e] w2];
    simpl; split; auto; intros k Hk; rewrite Hk; reflexivity.
Qed.

End Runs.


(** ** The Renderer's audio branch *)

(** C6: the Renderer's argument vector names one audio codec, chosen by
    the output's extension: AAC at 320 kbps when the lowercased suffix is
    [.mp4], a stream copy otherwise. *)
Theorem render_audio_by_extension cover audio output :
  let argv := render_cmd cover audio output in
  count_arg "-c:a" argv = 1 /\
  (lower (suffix output) = ".mp4" ->
     option_arg "-c:a" argv = Some "aac" /\ option_arg "-b:a" argv = Some "320k") /\
  (lower (suffix output) <> ".mp4" ->
     option_arg "-c:a" argv = Some "copy" /\ count_arg "-b:a" argv = 0).
Proof.
  cbv zeta. destruct (render_audio_args cover audio output) as [Hc Hb].
  split; [exact Hc|].
  destruct (String.eqb_spec (lower (suffix output)) ".mp4") as [E|E];
    split; intros H; (contradiction || exact Hb).
Qed.

Example render_album_mp4 cover audio :
  option_arg "-c:a" (render_cmd cover audio (mkPath ["music"; "album.mp4"])) = Some "aac".
Proof.
  destruct (render_audio_args cover audio (mkPath ["music"; "album.mp4"])) as [_ H].
  vm_compute in H. apply H.
Qed.

Example render_album_flac cover audio :
  option_arg "-c:a" (render_cmd cover audio (mkPath ["music"; "album.flac"])) = Some "copy".
Proof.
  destruct (render_audio_args cover audio (mkPath ["music"; "album.flac"])) as [_ H].
  vm_compute in H. apply H.
Qed.

Example render_album_mkv cover audio :
  option_arg "-c:a" (render_cmd cover audio (mkPath ["music"; "album.mkv"])) = Some "copy".
Proof.
  destruct (render_audio_args cover audio (mkPath ["music"; "album.mkv"])) as [_ H].
  vm_compute in H. apply H.
Qed.

(** C9: the test is on the lowercased suffix, so every letter-case variant
    of [.mp4] selects AAC at 320 kbps and every other suffix selects the
    stream copy. *)
Theorem render_mp4_case_insensitive cover audio output :
  let argv := render_cmd cover audio output in
  (In (suffix output) mp4_variants ->
     option_arg "-c:a" argv = Some "aac" /\ option_arg "-b:a" argv = Some "320k") /\
  (~ In (suffix output) mp4_variants -> option_arg "-c:a" argv = Some "copy").
Proof.
  cbv zeta. destruct (render_audio_args cover audio output) as [_ Hb].
  destruct (String.eqb_spec (lower (suffix output)) ".mp4") as [E|E];
    [apply lower_is_mp4 in E
    |assert (E' : ~ In (suffix output) mp4_variants) by (rewrite <- lower_is_mp4; exact E)].
  - split; intros Hin; [exact Hb|contradiction].
  - split; intros Hin; [contradiction|exact (proj1 Hb)].
Qed.

Example render_upper_MP4 cover audio :
  option_arg "-c:a" (render_cmd cover audio (mkPath ["music"; "ALBUM.MP4"])) = Some "aac".
Proof.
  destruct (render_audio_args cover audio (mkPath ["music"; "ALBUM.MP4"])) as [_ H].
  vm_compute in H. apply H.
Qed.

(** ** Concrete runs *)

(** A failure on the second track leaves the first track's line only. *)
Example second_track_fails_manifest :
  let w' := snd (transcode_wavs_to_flacs ex_proc_second
                   [mkPath ["music"; "album"; "a.wav"]; mkPath ["music"; "album"; "b.wav"]]
                   ex_tmp ex_world) in
  files w' "/tmp/tmpk2x9/flac_list.txt" = Some ("file '/tmp/tmpk2x9/01.flac'" ++ nl) /\
  length (spawned w') = 2.
Proof. vm_compute. split; reflexivity. Qed.

(** ** The order of the input files *)

Lemma ascii_compare_lt_trans (a b c : ascii) :
  Ascii.compare a b = Lt -> Ascii.compare b c = Lt -> Ascii.compare a c = Lt.
Proof. unfold Ascii.compare. rewrite !N.compare_lt_iff. lia. Qed.

Lemma ascii_compare_refl (a : ascii) : Ascii.compare a a = Eq.
Proof. unfold Ascii.compare. apply N.compare_refl. Qed.

Lemma string_compare_refl (s : string) : String.compare s s = Eq.
Proof. induction s; simpl; auto. now rewrite ascii_compare_refl. Qed.

Lemma string_compare_lt_trans (a b c : string) :
  String.compare a b = Lt -> String.compare b c = Lt -> String.compare a c = Lt.
Proof.
  revert b c. induction a as [|x a IH]; intros [|y b] [|z c]; simpl; try discriminate; auto.
  destruct (Ascii.compare x y) eqn:E1; destruct (Ascii.compare y z) eqn:E2;
    try discriminate; intros H1 H2.
  - apply Ascii.compare_eq_iff in E1, E2. subst. rewrite ascii_compare_refl. eauto.
  - apply Ascii.compare_eq_iff in E1. subst. now rewrite E2.
  - apply Ascii.compare_eq_iff in E2. subst. now rewrite E1.
  - now rewrite (ascii_compare_lt_trans _ _ _ E1 E2).
Qed.

Lemma parts_leb_total (a b : list string) : parts_leb a b = true \/ parts_leb b a = true.
Proof.
  revert b. induction a as [|x a IH]; intros [|y b]; simpl; auto.
  rewrite (String.compare_antisym y x).
  destruct (String.compare x y) eqn:E; simpl; auto.
Qed.

Lemma parts_leb_trans (a b c : list string) :
  parts_leb a b = true -> parts_leb b c = true -> parts_leb a c = true.
Proof.
  revert b c. induction a as [|x a IH]; intros [|y b] [|z c]; simpl; auto; try discriminate.
  destruct (String.compare x y) eqn:E1; destruct (String.compare y z) eqn:E2;
    try discriminate; intros H1 H2.
  - apply String.compare_eq_iff in E1, E2. subst. rewrite string_compare_refl. eauto.
  - apply String.compare_eq_iff in E1. subst. now rewrite E2.
  - apply String.compare_eq_iff in E2. subst. now rewrite E1.
  - now rewrite (string_compare_lt_trans _ _ _ E1 E2).
Qed.

Lemma insert_sorted_Sorted (x : Path) (l : list Path) :
  Sorted (fun a b => path_leb a b = true) l ->
  Sorted (fun a b => path_leb a b = true) (insert_sorted x l).
Proof.
  induction l as [|y l IH]; simpl; intros Hs.
  - repeat constructor.
  - destruct (path_leb y x) eqn:E.
    + apply Sorted_inv in Hs as [Hl Hh]. constructor; [now apply IH|].
      destruct l as [|z l]; simpl; [constructor; exact E|].
      destruct (path_leb z x); constructor; [now inversion Hh|exact E].
    + constructor; [exact Hs|]. constructor.
      destruct (parts_leb_total (parts x) (parts y)) as [H|H]; [exact H|].
      unfold path_leb in E. congruence.
Qed.

Lemma sorted_Sorted (l : list Path) : Sorted (fun a b => path_leb a b = true) (sorted l).
Proof. induction l; simpl; [constructor|now apply insert_sorted_Sorted]. Qed.

Lemma insert_sorted_perm (x : Path) (l : list Path) : Permutation (insert_sorted x l) (x :: l).
Proof.
  induction l as [|y l IH]; simpl; [reflexivity|].
  destruct (path_leb y x); [|reflexivity].
  rewrite IH. apply perm_swap.
Qed.

Lemma sorted_perm (l : list Path) : Permutation (sorted l) l.
Proof.
  induction l as [|x l IH]; simpl; [reflexivity|].
  rewrite insert_sorted_perm. now apply perm_skip.
Qed.

Lemma filter_perm {A} (f : A -> bool) (l l' : list A) :
  Permutation l l' -> Permutation (filter f l) (filter f l').
Proof.
  induction 1; simpl.
  - constructor.
  - destruct (f x); auto.
  - destruct (f x), (f y); auto. apply perm_swap.
  - eauto using Permutation_trans.
Qed.

Lemma filter_StronglySorted {A} (R : A -> A -> Prop) (f : A -> bool) (l : list A) :
  StronglySorted R l -> StronglySorted R (filter f l).
Proof.
  induction 1 as [|x l Hs IH Hall]; simpl; [constructor|].
  destruct (f x); [|exact IH].
  constructor; [exact IH|]. apply Forall_forall. intros y Hy.
  apply filter_In in Hy as [Hy _]. now apply (proj1 (Forall_forall _ _) Hall).
Qed.

(** The list of sources [main] hands to the Normalizer,
    [[w for w in sorted(root.glob(pattern)) if w.is_file()]], is ordered
    (each path compares, component by component, below every later one)
    and holds exactly the regular files the glob returned, each as often
    as the glob returned it. *)
Theorem source_list_sorted_regular_files (is_file : Path -> bool) (g : list Path) :
  let wavs := filter is_file (sorted g) in
  StronglySorted (fun a b => path_leb a b = true) wavs /\
  Permutation wavs (filter is_file g).
Proof.
  cbv zeta. split.
  - apply filter_StronglySorted. apply Sorted_StronglySorted.
    + intros a b c. apply parts_leb_trans.
    + apply sorted_Sorted.
  - apply filter_perm, sorted_perm.
Qed.

(** ** Traces of whole runs *)

(** What one [run(cmd)] does to the parts of the world the rest of a run
    looks at. *)
Lemma run_effect proc c w :
  let res := run proc c w in
  spawned (snd res) = app (spawned w) [c] /\ out_lines (snd res) = out_lines w /\
  scratch (snd res) = scratch w /\ err_lines (snd res) = err_lines w /\
  (returncode (proc c) = 0%Z -> fst res = inl (proc_stdout (proc c))) /\
  (returncode (proc c) <> 0%Z -> exists m, fst res = inr (RuntimeError m)).
Proof.
  cbv zeta. unfold run. cbv zeta.
  destruct (Z.eqb_spec (returncode (proc c)) 0) as [E|E];
    destruct (proc_output (proc c)); cbn [fst snd];
    (split; [reflexivity|]); (split; [reflexivity|]); (split; [reflexivity|]);
    (split; [reflexivity|]);
    split; intros H; solve [reflexivity | contradiction | eexists; reflexivity].
Qed.

Section Traces.

Variable proc : list string -> ProcResult.
Variable resolve_input : string -> Path.
Variable resolve_in : Path -> string -> Path.
Variable path_exists : Path -> bool.
Variable is_file : Path -> bool.
Variable glob : Path -> string -> list Path.
Variable mkdtemp : Path.

Local Abbreviation album := (run_album proc resolve_input resolve_in path_exists is_file glob mkdtemp).

(** The body of the [with] block, by cases on which command fails first. *)
Lemma tempdir_block_trace root cover wavs args wd w :
  let cmds := norm_cmds wd 1 wavs in
  let k := ok_prefix proc cmds in
  let cf := pdiv wd "album_concat.flac" in
  let cc := concat_cmd (pdiv wd "flac_list.txt") cf in
  let out := resolve_in root (a_output args) in
  let rc := render_cmd cover cf out in
  let res := tempdir_block proc resolve_in root cover wavs args wd w in
  scratch (snd res) = scratch w /\ err_lines (snd res) = err_lines w /\
  (k < length wavs ->
     spawned (snd res) = app (spawned w) (firstn (S k) cmds) /\
     out_lines (snd res) = out_lines w /\ exists m, fst res = inr (RuntimeError m)) /\
  (k = length wavs -> returncode (proc cc) <> 0%Z ->
     spawned (snd res) = app (spawned w) (app cmds [cc]) /\
     out_lines (snd res) = out_lines w /\ exists m, fst res = inr (RuntimeError m)) /\
  (k = length wavs -> returncode (proc cc) = 0%Z ->
     spawned (snd res) = app (spawned w) (app cmds [cc; rc]) /\
     out_lines (snd res) = app (out_lines w) ["Rendering final video -> " ++ path_name out] /\
     (returncode (proc rc) = 0%Z -> fst res = inl out) /\
     (returncode (proc rc) <> 0%Z -> exists m, fst res = inr (RuntimeError m))).
Proof.
  cbv zeta.
  destruct (normalizer_trace proc wavs wd w) as (Hs & _ & Hsc & Ho & He & Hok & Hko).
  cbv zeta in *.
  pose proof (ok_prefix_le proc (norm_cmds wd 1 wavs)) as Hle.
  rewrite length_norm_cmds in Hle.
  unfold tempdir_block. cbv zeta. cbv [bind ret print modify concat_flacs render_video].
  destruct (transcode_wavs_to_flacs proc wavs wd w) as [[fl|e] w1]; cbn [fst snd] in *.
  - assert (Hk : ok_prefix proc (norm_cmds wd 1 wavs) = length wavs).
    { destruct (Nat.eq_dec (ok_prefix proc (norm_cmds wd 1 wavs)) (length wavs)) as [E|E];
        [exact E|]. destruct (Hko ltac:(lia)) as [m Hm]. discriminate. }
    specialize (Hok Hk). injection Hok as ->. cbn [snd].
    rewrite Hk, firstn_all2 in Hs by (rewrite length_norm_cmds; lia).
    set (cf := pdiv wd "album_concat.flac").
    set (cc := concat_cmd (pdiv wd "flac_list.txt") cf).
    destruct (run_effect proc cc w1) as (Hs2 & Ho2 & Hsc2 & He2 & Hok2 & Hko2).
    cbv zeta in *.
    destruct (run proc cc w1) as [[o1|e1] w2]; cbn [fst snd] in *.
    + assert (Ec : returncode (proc cc) = 0%Z).
      { destruct (Z.eq_dec (returncode (proc cc)) 0) as [E|E]; [exact E|].
        destruct (Hko2 E) as [m Hm]. discriminate. }
      set (rc := render_cmd cover cf (resolve_in root (a_output args))).
      set (l := "Rendering final video -> " ++ path_name (resolve_in root (a_output args))).
      destruct (run_effect proc rc (add_out w2 l)) as (Hs3 & Ho3 & Hsc3 & He3 & Hok3 & Hko3).
      cbv zeta in *.
      destruct (run proc rc (add_out w2 l)) as [[o2|e2] w3]; cbn [fst snd] in *;
        cbn [spawned out_lines scratch err_lines add_out] in *.
      * split; [congruence|]. split; [congruence|].
        split; [intros; lia|]. split; [intros _ E; contradiction|].
        intros _ _. split; [rewrite Hs3, Hs2, Hs, <- !app_assoc; reflexivity|].
        split; [rewrite Ho3, Ho2, Ho; reflexivity|].
        split; [intros _; reflexivity|].
        intros E. destruct (Hko3 E) as [m Hm]. discriminate.
      * split; [congruence|]. split; [congruence|].
        split; [intros; lia|]. split; [intros _ E; contradiction|].
        intros _ _. split; [rewrite Hs3, Hs2, Hs, <- !app_assoc; reflexivity|].
        split; [rewrite Ho3, Ho2, Ho; reflexivity|].
        split; [intros E; specialize (Hok3 E); discriminate|].
        intros _. destruct (Z.eq_dec (returncode (proc rc)) 0) as [E|E];
          [specialize (Hok3 E); discriminate|].
        destruct (Hko3 E) as [m Hm]. injection Hm as ->. eauto.
    + assert (Ec : returncode (proc cc) <> 0%Z).
      { intros E. specialize (Hok2 E). discriminate. }
      split; [congruence|]. split; [congruence|].
      split; [intros; lia|]. split.
      * intros _ _. split; [rewrite Hs2, Hs, <- app_assoc; reflexivity|].
        split; [congruence|].
        destruct (Hko2 Ec) as [m Hm]. injection Hm as ->. eauto.
      * intros _ E. contradiction.
  - assert (Hk : ok_prefix proc (norm_cmds wd 1 wavs) < length wavs).
    { destruct (Nat.eq_dec (ok_prefix proc (norm_cmds wd 1 wavs)) (length wavs)) as [E|E];
        [specialize (Hok E); discriminate|lia]. }
    split; [exact Hsc|]. split; [exact He|].
    split; [|split; intros; lia].
    intros _. split; [exact Hs|]. split; [exact Ho|].
    destruct (Hko Hk) as [m Hm]. injection Hm as ->. eauto.
Qed.

(** The run once the guards have passed: the summary line, then the
    [with] block, then the two closing lines. *)
Lemma run_album_guarded args w :
  let root := resolve_input (a_input args) in
  let cover := resolve_in root (a_cover args) in
  let wavs := filter is_file (sorted (glob root (a_pattern args))) in
  path_exists root = true -> path_exists cover = true -> wavs <> [] ->
  album args w =
  match tempdir_block proc resolve_in root cover wavs args mkdtemp
          (set_scratch (add_out w ("Found " ++ nat_str (length wavs)
                                   ++ " WAV files. Concatenating audio..."))
                       (Some mkdtemp)) with
  | (inl p, w2) => (inl tt, add_out (add_out (cleanup mkdtemp w2) "Done.")
                                    ("Output video: " ++ path_str p))
  | (inr e, w2) => (inr e, cleanup mkdtemp w2)
  end.
Proof.
  cbv zeta. intros H1 H2 H3. unfold run_album. cbv zeta.
  cbv [bind ret raise print modify ensure_exists with_tempdir]. rewrite H1, H2.
  destruct (filter is_file (sorted (glob (resolve_input (a_input args)) (a_pattern args))))
    as [|x xs]; [contradiction|]. cbv beta iota.
  destruct (tempdir_block proc resolve_in _ _ (x :: xs) args mkdtemp _) as [[p|e] w2];
    reflexivity.
Qed.

(** When every [ffmpeg] command succeeds, a run spawns exactly the
    Normalizer's commands, in source order, then the concatenation of the
    manifest into [album_concat.flac], then the render of that file with
    the cover into the output; it prints the number of regular files
    found, the output's name, [Done.] and the output's path, and nothing
    on standard error. *)
Theorem run_album_success_trace args w :
  let root := resolve_input (a_input args) in
  let cover := resolve_in root (a_cover args) in
  let wavs := filter is_file (sorted (glob root (a_pattern args))) in
  let cf := pdiv mkdtemp "album_concat.flac" in
  let out := resolve_in root (a_output args) in
  path_exists root = true -> path_exists cover = true -> wavs <> [] ->
  (forall c, returncode (proc c) = 0%Z) ->
  fst (album args w) = inl tt /\
  spawned (snd (album args w))
    = app (spawned w) (app (norm_cmds mkdtemp 1 wavs)
                           [concat_cmd (pdiv mkdtemp "flac_list.txt") cf;
                            render_cmd cover cf out]) /\
  out_lines (snd (album args w))
    = app (out_lines w)
          ["Found " ++ nat_str (length wavs) ++ " WAV files. Concatenating audio...";
           "Rendering final video -> " ++ path_name out; "Done.";
           "Output video: " ++ path_str out] /\
  err_lines (snd (album args w)) = err_lines w.
Proof.
  cbv zeta. intros H1 H2 H3 Hall.
  rewrite (run_album_guarded args w H1 H2 H3).
  set (wavs := filter is_file (sorted (glob (resolve_input (a_input args)) (a_pattern args)))).
  set (w1 := set_scratch (add_out w _) (Some mkdtemp)).
  destruct (tempdir_block_trace (resolve_input (a_input args))
              (resolve_in (resolve_input (a_input args)) (a_cover args)) wavs args mkdtemp w1)
    as (_ & He & _ & _ & Hok).
  cbv zeta in *.
  assert (Hk : ok_prefix proc (norm_cmds mkdtemp 1 wavs) = length wavs).
  { rewrite ok_prefix_all by (intros c _; apply Hall). apply length_norm_cmds. }
  destruct (Hok Hk (Hall _)) as (Hs & Ho & Hr & _).
  specialize (Hr (Hall _)).
  destruct (tempdir_block proc resolve_in _ _ wavs args mkdtemp w1) as [[p|e] w2];
    cbn [fst snd] in *; [|discriminate].
  injection Hr as ->. cbn [spawned out_lines err_lines add_out cleanup set_scratch set_files].
  split; [reflexivity|]. split; [exact Hs|]. split.
  - rewrite Ho. unfold w1. cbn [out_lines add_out set_scratch]. rewrite <- !app_assoc. reflexivity.
  - rewrite He. reflexivity.
Qed.


(** When every transcode succeeds but the concatenation fails, the run
    spawns the transcodes and the concatenation, never the render, prints
    only the summary line, and raises a [RuntimeError]. *)
Theorem run_album_concat_failure args w :
  let root := resolve_input (a_input args) in
  let cover := resolve_in root (a_cover args) in
  let wavs := filter is_file (sorted (glob root (a_pattern args))) in
  let cc := concat_cmd (pdiv mkdtemp "flac_list.txt") (pdiv mkdtemp "album_concat.flac") in
  path_exists root = true -> path_exists cover = true -> wavs <> [] ->
  ok_prefix proc (norm_cmds mkdtemp 1 wavs) = length wavs ->
  returncode (proc cc) <> 0%Z ->
  (exists m, fst (album args w) = inr (RuntimeError m)) /\
  spawned (snd (album args w)) = app (spawned w) (app (norm_cmds mkdtemp 1 wavs) [cc]) /\
  out_lines (snd (album args w))
    = app (out_lines w) ["Found " ++ nat_str (length wavs) ++ " WAV files. Concatenating audio..."].
Proof.
  cbv zeta. intros H1 H2 H3 Hk Hc.
  rewrite (run_album_guarded args w H1 H2 H3).
  set (wavs := filter is_file (sorted (glob (resolve_input (a_input args)) (a_pattern args)))).
  fold wavs in Hk.
  set (w1 := set_scratch (add_out w _) (Some mkdtemp)).
  destruct (tempdir_block_trace (resolve_input (a_input args))
              (resolve_in (resolve_input (a_input args)) (a_cover args)) wavs args mkdtemp w1)
    as (_ & _ & _ & Hfail & _).
  cbv zeta in *.
  destruct (Hfail Hk Hc) as (Hs & Ho & m & Hm).
  destruct (tempdir_block proc resolve_in _ _ wavs args mkdtemp w1) as [[p|e] w2];
    cbn [fst snd] in *; [discriminate|].
  injection Hm as ->. cbn [spawned out_lines cleanup set_scratch set_files].
  split; [eauto|]. split; [exact Hs|].
  rewrite Ho. reflexivity.
Qed.


End Traces.

(** ** Which command a failed run blames *)








(** What [parse_args] leaves behind: the parsed arguments and an untouched
    world, or [argparse]'s text and a [SystemExit] with its exit code. *)
Lemma parse_args_outcome argparse argv w :
  match argparse argv with
  | PDone a => parse_args argparse argv w = (inl a, w)
  | PHelp t => parse_args argparse argv w = (inr (SystemExit (ExitCode 0)), add_outs w t)
  | PError t => parse_args argparse argv w = (inr (SystemExit (ExitCode 2)), add_errs w t)
  end.
Proof.
  unfold parse_args. destruct (argparse argv); reflexivity.
Qed.

Section Claims.

Variable argparse : list string -> parse_res.
Variable proc : list string -> ProcResult.
Variable resolve_input : string -> Path.
Variable resolve_in : Path -> string -> Path.
Variable path_exists : Path -> bool.
Variable is_file : Path -> bool.
Variable glob : Path -> string -> list Path.
Variable mkdtemp : Path.

Local Abbreviation album := (run_album proc resolve_input resolve_in path_exists is_file glob mkdtemp).
Local Abbreviation main_ :=
  (main argparse proc resolve_input resolve_in path_exists is_file glob mkdtemp).
Local Abbreviation top :=
  (toplevel argparse proc resolve_input resolve_in path_exists is_file glob mkdtemp).

Lemma main_parsed argv a w :
  argparse argv = PDone a -> main_ argv w = album a w.
Proof.
  intros Hp. pose proof (parse_args_outcome argparse argv w) as H.
  rewrite Hp in H. unfold main, bind. now rewrite H.
Qed.

Lemma toplevel_final argv w :
  files (final (top argv w)) = files (snd (main_ argv w)) /\
  scratch (final (top argv w)) = scratch (snd (main_ argv w)) /\
  spawned (final (top argv w)) = spawned (snd (main_ argv w)).
Proof.
  unfold toplevel. destruct (main_ argv w) as [[u|e] w'].
  - auto.
  - destruct (is_Exception e); [simpl; auto|].
    destruct e as [m|m|[z|m]]; simpl; auto.
Qed.


(** C7: once the guards pass, the temporary directory is created, and at
    the end of the run it no longer exists and no file lies under it
    (intermediates, manifest, concatenated audio), whether the commands
    succeeded or one of them failed. *)
Theorem scratch_dir_always_removed argv a w :
  argparse argv = PDone a ->
  path_exists (resolve_input (a_input a)) = true ->
  path_exists (resolve_in (resolve_input (a_input a)) (a_cover a)) = true ->
  filter is_file (sorted (glob (resolve_input (a_input a)) (a_pattern a))) <> [] ->
  let w' := final (top argv w) in
  scratch w' = None /\ forall k, under mkdtemp k = true -> files w' k = None.
Proof.
  intros Hp H1 H2 H3. cbv zeta.
  destruct (toplevel_final argv w) as (Ef & Es & _). rewrite Ef, Es.
  rewrite (main_parsed argv a w Hp).
  now apply run_album_cleans_scratch.
Qed.

(** C8: every command a run spawns (the Normalizer's, the Concatenator's
    and the Renderer's) passes [-y], [ffmpeg]'s flag to overwrite its
    output file without asking. *)
Theorem every_invocation_overwrites argv w :
  (forall wav out, yflag (transcode_cmd wav out)) /\
  (forall lp out, yflag (concat_cmd lp out)) /\
  (forall cover audio out, yflag (render_cmd cover audio out)) /\
  exists l, spawned (final (top argv w)) = app (spawned w) l /\ Forall yflag l.
Proof.
  split; [reflexivity|]. split; [reflexivity|]. split; [reflexivity|].
  destruct (toplevel_final argv w) as (_ & _ & Esp). rewrite Esp.
  pose proof (parse_args_outcome argparse argv w) as Hp. unfold main, bind.
  destruct (argparse argv) as [a|t|t]; rewrite Hp.
  - destruct (run_album_outcome proc resolve_input resolve_in path_exists
                is_file glob mkdtemp a w) as [[_ St] _]. exact St.
  - exists []. simpl. rewrite app_nil_r. split; auto.
  - exists []. simpl. rewrite app_nil_r. split; auto.
Qed.


End Claims.



Lemma scratch_dir_always_removed_witness :
  ex_argparse ex_argv = PDone ex_args /\
  scratch (final (toplevel ex_argparse ex_proc_fail ex_resolve_input ex_resolve_in ex_all ex_all
                    ex_glob_two ex_tmp ex_argv ex_world)) = None.
Proof.
  split; [reflexivity|].
  refine (proj1 (scratch_dir_always_removed ex_argparse ex_proc_fail ex_resolve_input
                   ex_resolve_in ex_all ex_all ex_glob_two ex_tmp ex_argv ex_args ex_world
                   eq_refl eq_refl eq_refl _)).
  vm_compute. discriminate.
Defined.

(** ** Files a run leaves alone *)

(** A computation that leaves the files at the keys satisfying [P] as
    they were. *)
Definition Keeps {A} (P : string -> Prop) (m : M A) : Prop :=
  forall w k, P k -> files (snd (m w)) k = files w k.

Lemma Keeps_ret {A} P (a : A) : Keeps P (ret a).
Proof. intros w k _. reflexivity. Qed.

Lemma Keeps_raise {A} P e : Keeps P (@raise A e).
Proof. intros w k _. reflexivity. Qed.

Lemma Keeps_bind {A B} P (m : M A) (f : A -> M B) :
  Keeps P m -> (forall a, Keeps P (f a)) -> Keeps P (bind m f).
Proof.
  intros Hm Hf w k Hk. unfold bind. specialize (Hm w k Hk).
  destruct (m w) as [[a|e] w1]; cbn [snd] in *; [rewrite (Hf a w1 k Hk)|]; exact Hm.
Qed.

Lemma Keeps_print P l : Keeps P (print l).
Proof. intros w k _. reflexivity. Qed.

Lemma Keeps_write P p v : (forall k, P k -> k <> path_str p) -> Keeps P (write_text p v).
Proof.
  intros H w k Hk. unfold write_text, modify, set_files, fs_write. cbn [snd files].
  destruct (String.eqb_spec k (path_str p)) as [E|_]; [exfalso; exact (H k Hk E)|reflexivity].
Qed.

Lemma Keeps_append P p v : (forall k, P k -> k <> path_str p) -> Keeps P (append_text p v).
Proof.
  intros H w k Hk. unfold append_text, modify, set_files, fs_write. cbn [snd files].
  destruct (String.eqb_spec k (path_str p)) as [E|_]; [exfalso; exact (H k Hk E)|reflexivity].
Qed.

Lemma Keeps_run P proc c : (forall k, P k -> k <> last c "") -> Keeps P (run proc c).
Proof.
  intros H w k Hk. unfold run. cbv zeta.
  assert (E : files (match proc_output (proc c) with
                     | Some v => set_files (add_spawned w c) (fs_write (files (add_spawned w c)) (last c "") v)
                     | None => add_spawned w c
                     end) k = files w k).
  { destruct (proc_output (proc c)); [|reflexivity].
    unfold set_files, fs_write. cbn [files add_spawned].
    destruct (String.eqb_spec k (last c "")) as [E|_]; [exfalso; exact (H k Hk E)|reflexivity]. }
  destruct (Z.eqb (returncode (proc c)) 0); exact E.
Qed.

Lemma last_render_cmd cover audio output : last (render_cmd cover audio output) "" = path_str output.
Proof. unfold render_cmd, audio_codec. destruct (String.eqb _ ".mp4"); reflexivity. Qed.

Lemma Keeps_transcode_loop P proc wd lp wavs :
  (forall k s, P k -> k <> path_str (pdiv wd s)) -> (forall k, P k -> k <> path_str lp) ->
  forall idx acc, Keeps P (transcode_loop proc wd lp idx wavs acc).
Proof.
  intros Hwd Hlp. induction wavs as [|wav rest IH]; intros idx acc; simpl.
  - apply Keeps_ret.
  - apply Keeps_bind.
    + apply Keeps_run. intros k Hk.
      destruct (transcode_cmd_options wav (flac_name wd idx)) as (_ & _ & _ & _ & ->).
      apply Hwd, Hk.
    + intros ?. apply Keeps_bind; [apply Keeps_append, Hlp|intros ?; apply IH].
Qed.

Lemma Keeps_tempdir_block P proc resolve_in root cover wavs args wd :
  (forall k s, P k -> k <> path_str (pdiv wd s)) ->
  (forall k, P k -> k <> path_str (resolve_in root (a_output args))) ->
  Keeps P (tempdir_block proc resolve_in root cover wavs args wd).
Proof.
  intros Hwd Hout. unfold tempdir_block, transcode_wavs_to_flacs. cbv zeta.
  apply Keeps_bind.
  - apply Keeps_bind; [apply Keeps_write; intros k Hk; apply Hwd, Hk|intros ?].
    apply Keeps_bind; [apply Keeps_transcode_loop; auto|intros ?; apply Keeps_ret].
  - intros fl. apply Keeps_bind.
    + unfold concat_flacs. apply Keeps_bind; [|intros ?; apply Keeps_ret].
      apply Keeps_run. intros k Hk. apply Hwd, Hk.
    + intros ?. apply Keeps_bind; [apply Keeps_print|intros ?].
      apply Keeps_bind; [|intros ?; apply Keeps_ret].
      unfold render_video. apply Keeps_bind; [|intros ?; apply Keeps_ret].
      apply Keeps_run. intros k Hk. rewrite last_render_cmd. apply Hout, Hk.
Qed.

Lemma Keeps_with_tempdir {A} P mkdtemp (body : Path -> M A) :
  (forall k, P k -> under mkdtemp k = false) -> Keeps P (body mkdtemp) ->
  Keeps P (with_tempdir mkdtemp body).
Proof.
  intros Hu Hb w k Hk. unfold with_tempdir.
  specialize (Hb (set_scratch w (Some mkdtemp)) k Hk).
  destruct (body mkdtemp (set_scratch w (Some mkdtemp))) as [r w2]. cbn [snd] in *.
  unfold cleanup, set_scratch, set_files. cbn [files]. rewrite (Hu k Hk). exact Hb.
Qed.

Lemma substring_app_l (a b : string) (m : nat) :
  substring (String.length a) m (a ++ b) = substring 0 m b.
Proof. induction a; simpl; auto. Qed.

Lemma prefix_app (a b : string) : String.prefix a (a ++ b) = true.
Proof.
  apply String.prefix_correct. rewrite <- (substring_app_l "" (a ++ b)). simpl.
  induction a; simpl; [destruct b; reflexivity|congruence].
Qed.

Lemma under_pdiv (d : Path) (s : string) : parts d <> [] -> under d (path_str (pdiv d s)) = true.
Proof.
  intros Hd. unfold under. rewrite path_str_pdiv. unfold dir_prefix.
  destruct (parts d) eqn:E; [contradiction|].
  rewrite prefix_app. apply orb_true_r.
Qed.

(** A run changes no file outside its temporary directory other than the
    output video: whatever the arguments and wherever it stops, every
    other path holds what it held before (the sources and the cover are
    only read). *)
Theorem run_album_frame proc resolve_input resolve_in path_exists is_file glob mkdtemp args w k :
  parts mkdtemp <> [] ->
  under mkdtemp k = false ->
  k <> path_str (resolve_in (resolve_input (a_input args)) (a_output args)) ->
  files (snd (run_album proc resolve_input resolve_in path_exists is_file glob mkdtemp args w)) k
  = files w k.
Proof.
  intros Hd Hu Ho.
  set (P := fun k => under mkdtemp k = false /\
                     k <> path_str (resolve_in (resolve_input (a_input args)) (a_output args))).
  assert (HK : Keeps P (run_album proc resolve_input resolve_in path_exists is_file glob mkdtemp args)).
  { unfold run_album. cbv zeta.
    apply Keeps_bind; [unfold ensure_exists; destruct (path_exists _);
                       [apply Keeps_ret|apply Keeps_raise]|intros ?].
    apply Keeps_bind; [unfold ensure_exists; destruct (path_exists _);
                       [apply Keeps_ret|apply Keeps_raise]|intros ?].
    apply Keeps_bind; [destruct (filter _ _); [apply Keeps_raise|apply Keeps_ret]|intros ?].
    apply Keeps_bind; [apply Keeps_print|intros ?].
    apply Keeps_bind;
      [|intros ?; apply Keeps_bind; [apply Keeps_print|intros ?; apply Keeps_print]].
    apply Keeps_with_tempdir; [intros k' [Hk' _]; exact Hk'|].
    apply Keeps_tempdir_block.
    - intros k' s [Hk' _] E. rewrite E, under_pdiv in Hk' by exact Hd. discriminate.
    - intros k' [_ Hk']. exact Hk'. }
  exact (HK w k (conj Hu Ho)).
Qed.

(** ** The manifest read back *)

(** The characters that keep a manifest line as written: no single quote
    and no line end. *)
Definition plain_char (c : ascii) : bool :=
  negb (orb (Ascii.eqb c "'"%char) (is_line_end c)).

Lemma list_ascii_of_string_app (a b : string) :
  list_ascii_of_string (a ++ b) = app (list_ascii_of_string a) (list_ascii_of_string b).
Proof. induction a; simpl; congruence. Qed.

Lemma take_line_app (l t : string) :
  forallb (fun c => negb (is_line_end c)) (list_ascii_of_string l) = true ->
  take_line (l ++ nl ++ t) = (l, Some t).
Proof.
  induction l as [|c l IH]; intros H; [reflexivity|].
  cbn [list_ascii_of_string forallb] in H. apply andb_prop in H as [Hc Hl].
  apply negb_true_iff in Hc.
  change (String c l ++ nl ++ t) with (String c (l ++ nl ++ t)). cbn [take_line].
  rewrite Hc, IH by exact Hl.
  destruct (Ascii.eqb_spec c (ascii_of_nat 13)) as [->|_]; [discriminate|reflexivity].
Qed.

Lemma read_lines_fuel_lines (ls : list string) : forall fuel,
  Forall (fun l => forallb (fun c => negb (is_line_end c)) (list_ascii_of_string l) = true) ls ->
  length ls < fuel ->
  read_lines_fuel fuel (concat_str (map (fun l => l ++ nl) ls)) = ls.
Proof.
  induction ls as [|l ls IH]; intros [|fuel] Hf Hlen; cbn [length] in Hlen; try lia.
  - reflexivity.
  - inversion Hf as [|? ? Hl Hls]; subst.
    cbn [map concat_str read_lines_fuel].
    rewrite append_assoc_str, take_line_app by exact Hl. f_equal. apply IH; [exact Hls|lia].
Qed.

Lemma length_concat_lines (ls : list string) :
  length ls <= String.length (concat_str (map (fun l => l ++ nl) ls)).
Proof.
  induction ls as [|l ls IH]; cbn [map concat_str length]; [lia|].
  rewrite !string_length_append. cbn. lia.
Qed.

Lemma av_token_loop_quoted (p r : string) : forall out endl,
  forallb (fun c => negb (Ascii.eqb c "'"%char)) (list_ascii_of_string p) = true ->
  av_token_loop (p ++ String "'" r) true out endl
  = av_token_loop r false (app (rev (list_ascii_of_string p)) out)
                  (length (app (rev (list_ascii_of_string p)) out)).
Proof.
  induction p as [|c p IH]; intros out endl H; [reflexivity|].
  cbn [list_ascii_of_string forallb] in H. apply andb_prop in H as [Hc Hp].
  apply negb_true_iff in Hc.
  change (String c p ++ String "'" r) with (String c (p ++ String "'" r)).
  cbn [av_token_loop]. change (ascii_of_nat 39) with "'"%char. rewrite Hc, IH by exact Hp.
  cbn [list_ascii_of_string rev]. now rewrite <- app_assoc.
Qed.

Lemma trim_out_full (out : list ascii) : trim_out out (length out) = out.
Proof. destruct out; cbn [trim_out]; [reflexivity|]. now rewrite Nat.ltb_irrefl. Qed.

Lemma concat_files_manifest (ps : list Path) :
  Forall (fun p => forallb plain_char (list_ascii_of_string (path_str p)) = true) ps ->
  concat_files (map (fun p => "file " ++ quote ++ path_str p ++ quote) ps)
  = Some (map path_str ps).
Proof.
  induction ps as [|p ps IH]; intros Hf; [reflexivity|].
  inversion Hf as [|? ? Hp Hps]; subst.
  destruct (path_str_cons p) as [t Ht].
  assert (Hq : forallb (fun c => negb (Ascii.eqb c "'"%char))
                 (list_ascii_of_string (path_str p)) = true).
  { rewrite forallb_forall in *. intros c Hc. specialize (Hp c Hc).
    unfold plain_char in Hp. destruct (Ascii.eqb c "'"); [discriminate|reflexivity]. }
  assert (Hk : forall x, get_keyword (String "f" (String "i" (String "l" (String "e"
                   (String " " (String "'" x)))))) = ("file", String "'" x)) by reflexivity.
  assert (Hg : forall x,
             forallb (fun c => negb (Ascii.eqb c "'"%char)) (list_ascii_of_string x) = true ->
             av_get_token (String "'" (x ++ "'")) = x).
  { intros x Hx. unfold av_get_token. simpl skip_space. simpl av_token_loop.
    rewrite av_token_loop_quoted by exact Hx. cbn [av_token_loop].
    rewrite app_nil_r, trim_out_full, rev_involutive.
    apply string_of_list_ascii_of_string. }
  cbn [map concat_files]. rewrite IH by exact Hps.
  change ("file " ++ quote ++ path_str p ++ quote)
    with (String "f" (String "i" (String "l" (String "e"
            (String " " (String "'" (path_str p ++ "'"))))))).
  rewrite Hk. cbn -[av_get_token path_str]. rewrite (Hg _ Hq).
  rewrite Ht. reflexivity.
Qed.

(** The concat demuxer reads back, in order, exactly the files a manifest
    of [file] lines names, whenever no path holds a single quote or a line
    end ([\n], [\r] or NUL): the lines the Normalizer appends then name
    the intermediates the Concatenator joins. *)
Theorem manifest_read_back (ps : list Path) :
  ps <> [] ->
  Forall (fun p => forallb plain_char (list_ascii_of_string (path_str p)) = true) ps ->
  concat_read (concat_str (map manifest_line ps)) = Some (map path_str ps).
Proof.
  intros Hne Hf.
  assert (E : map manifest_line ps
              = map (fun l => l ++ nl) (map (fun p => "file " ++ quote ++ path_str p ++ quote) ps)).
  { rewrite map_map. apply map_ext. intros p. unfold manifest_line.
    now rewrite !append_assoc_str. }
  unfold concat_read, read_lines. rewrite E.
  rewrite read_lines_fuel_lines.
  - rewrite concat_files_manifest by exact Hf.
    destruct ps; [contradiction|reflexivity].
  - rewrite Forall_map. eapply Forall_impl; [|exact Hf]. intros p Hp.
    cbn beta in Hp. rewrite !list_ascii_of_string_app, !forallb_app.
    rewrite forallb_forall in Hp. unfold plain_char in Hp.
    replace (forallb (fun c => negb (is_line_end c)) (list_ascii_of_string (path_str p)))
      with true; [reflexivity|].
    symmetry. apply forallb_forall. intros c Hc. specialize (Hp c Hc).
    destruct (is_line_end c); [rewrite orb_true_r in Hp; discriminate|reflexivity].
  - pose proof (length_concat_lines (map (fun p => "file " ++ quote ++ path_str p ++ quote) ps)).
    rewrite length_map in *. lia.
Qed.

(** ** Distinct outputs *)

Lemma map_last_norm_cmds wd wavs : forall idx,
  map (fun c => last c "") (norm_cmds wd idx wavs)
  = map (fun i => path_str (flac_name wd i)) (seq idx (length wavs)).
Proof.
  induction wavs as [|wav rest IH]; intros idx; cbn [norm_cmds map seq length]; [reflexivity|].
  destruct (transcode_cmd_options wav (flac_name wd idx)) as (_ & _ & _ & _ & ->).
  now rewrite IH.
Qed.

Lemma path_str_flac_name_inj wd i j :
  path_str (flac_name wd i) = path_str (flac_name wd j) -> i = j.
Proof.
  unfold flac_name. rewrite !path_str_pdiv. intros H.
  apply append_cancel_l, append_cancel_r, fmt02d_inj in H. exact H.
Qed.

Lemma concat_not_flac wd i :
  path_str (pdiv wd "album_concat.flac") <> path_str (flac_name wd i).
Proof.
  unfold flac_name. rewrite !path_str_pdiv. intros H.
  apply append_cancel_l in H.
  unfold fmt02d, nat_str in H. destruct (Nat.ltb i 10); [discriminate|].
  destruct (Nat.to_uint i); discriminate.
Qed.

(** The files the commands of a run write inside the temporary directory
    (the numbered intermediates and [album_concat.flac]) are pairwise
    distinct, and none of them is the manifest: no command overwrites the
    output of another or the manifest the concatenation reads. *)
Theorem intermediate_outputs_distinct wd wavs :
  let lp := pdiv wd "flac_list.txt" in
  let outs := map (fun c => last c "")
                  (app (norm_cmds wd 1 wavs) [concat_cmd lp (pdiv wd "album_concat.flac")]) in
  NoDup outs /\ ~ In (path_str lp) outs.
Proof.
  cbv zeta. rewrite map_app, map_last_norm_cmds. simpl map at 2.
  assert (Hc : ~ In (path_str (pdiv wd "album_concat.flac"))
                 (map (fun i => path_str (flac_name wd i)) (seq 1 (length wavs)))).
  { intros Hin. apply in_map_iff in Hin as (i & Hi & _).
    exact (concat_not_flac wd i (eq_sym Hi)). }
  split.
  - apply (Permutation_NoDup (Permutation_cons_append _ _)).
    constructor; [exact Hc|].
    apply NoDup_map_NoDup_ForallPairs; [|apply seq_NoDup].
    intros i j _ _. apply path_str_flac_name_inj.
  - intros Hin. apply in_app_or in Hin as [Hin|[Hin|[]]].
    + apply in_map_iff in Hin as (i & Hi & _).
      exact (manifest_not_flac wd i (eq_sym Hi)).
    + change (last (concat_cmd (pdiv wd "flac_list.txt") (pdiv wd "album_concat.flac")) "")
        with (path_str (pdiv wd "album_concat.flac")) in Hin.
      rewrite !path_str_pdiv in Hin. apply append_cancel_l in Hin. discriminate.
Qed.

(** ** Runs of the example setting *)

Lemma run_album_success_trace_witness :
  out_lines (snd (run_album ex_proc_ok ex_resolve_input ex_resolve_in ex_all ex_all
                    ex_glob_two ex_tmp ex_args ex_world))
  = ["Found 2 WAV files. Concatenating audio...";
     "Rendering final video -> FULL-GPU.mp4"; "Done.";
     "Output video: /music/album/FULL-GPU.mp4"].
Proof.
  pose proof (run_album_success_trace ex_proc_ok ex_resolve_input ex_resolve_in ex_all ex_all
                ex_glob_two ex_tmp ex_args ex_world eq_refl eq_refl
                ltac:(vm_compute; discriminate) (fun _ => eq_refl)) as H.
  cbv zeta in H. rewrite (proj1 (proj2 (proj2 H))). vm_compute. reflexivity.
Defined.


Lemma run_album_concat_failure_witness :
  length (spawned (snd (run_album (ex_proc_fail_on "/tmp/tmpk2x9/album_concat.flac")
                          ex_resolve_input ex_resolve_in ex_all ex_all
                          ex_glob_two ex_tmp ex_args ex_world))) = 3 /\
  out_lines (snd (run_album (ex_proc_fail_on "/tmp/tmpk2x9/album_concat.flac")
                    ex_resolve_input ex_resolve_in ex_all ex_all
                    ex_glob_two ex_tmp ex_args ex_world))
  = ["Found 2 WAV files. Concatenating audio..."].
Proof.
  pose proof (run_album_concat_failure (ex_proc_fail_on "/tmp/tmpk2x9/album_concat.flac")
                ex_resolve_input ex_resolve_in ex_all ex_all ex_glob_two ex_tmp ex_args ex_world
                eq_refl eq_refl ltac:(vm_compute; discriminate)
                ltac:(vm_compute; reflexivity) ltac:(vm_compute; discriminate)) as H.
  cbv zeta in H. destruct H as (_ & Hs & Ho). rewrite Hs, Ho.
  split; vm_compute; reflexivity.
Defined.


Lemma run_album_frame_witness :
  files (snd (run_album ex_proc_ok ex_resolve_input ex_resolve_in ex_all ex_all
                ex_glob_two ex_tmp ex_args ex_world_src)) "/music/album/a.wav" = Some "pcm".
Proof.
  exact (run_album_frame ex_proc_ok ex_resolve_input ex_resolve_in ex_all ex_all ex_glob_two
           ex_tmp ex_args ex_world_src "/music/album/a.wav" ltac:(discriminate)
           ltac:(vm_compute; reflexivity) ltac:(vm_compute; discriminate)).
Defined.

Lemma manifest_read_back_witness :
  concat_read (concat_str (map manifest_line [flac_name ex_tmp 1; flac_name ex_tmp 2]))
  = Some ["/tmp/tmpk2x9/01.flac"; "/tmp/tmpk2x9/02.flac"].
Proof.
  exact (manifest_read_back [flac_name ex_tmp 1; flac_name ex_tmp 2]
           ltac:(discriminate) ltac:(repeat constructor)).
Defined.
